(** * Flash map: the partitioned, bounds-checked view of a flash device

    Shallow embedding of [subsys/storage/flash_map/flash_map.c].

    The C functions read two globals ([flash_map], [flash_map_entries]) and
    call into the flash driver and the device core.  They are embedded as
    state-passing functions over a [state] that holds the globals, the
    world behind the driver interface, and a record of every call that
    leaves the layer (the "device stub that records calls").

    Integers.  Every C integer is a [Z].  The only arithmetic of the file
    is [fa->fa_off + off], an addition of two [off_t] (signed: overflow is
    undefined in C, there is no wrap-around to write out); the model adds
    in [Z].  [size_t] and [uint32_t] have the same width on the 32-bit
    targets this tree is built for, so the conversion in the return of
    [flash_area_align] is the identity.  The [LOG_ERR] lines are
    diagnostics and are not part of the model. *)

From Stdlib Require Import ZArith List Lia Bool.
From stdpp Require Import base list.
Import ListNotations.
Local Open Scope Z_scope.

(** ** errno values used by the layer (errno.h) *)

Definition ENOENT : Z := 2.
Definition EACCES : Z := 13.
Definition ENODEV : Z := 19.
Definition EINVAL : Z := 22.

(** ** Data model *)

(** A device instance, and a [const struct device *]: [None] is NULL. *)
Definition device := nat.
Definition device_ptr := option device.

(** The contents of a caller's buffer ([void *dst], [const void *src]). *)
Definition buffer := list Byte.byte.

(** An opaque [void *] handed through to a callback. *)
Definition void_ptr := Z.

(** Modelled from the spec: [struct flash_area] is declared in
    zephyr/storage/flash_map.h, which is not among the sources.  The
    fields are the ones flash_map.c reads: the descriptor's id, backing
    device, offset within the device and size. *)
Record flash_area : Type := mk_flash_area {
  fa_id : Z;
  fa_dev : device_ptr;
  fa_off : Z;
  fa_size : Z
}.

(** A [const struct flash_area *]: [None] is NULL.  A handle is such a
    pointer; the descriptor it points to is read-only, so the model
    carries the descriptor itself. *)
Definition fa_ptr := option flash_area.

(** Modelled from the spec: [struct flash_parameters] is declared in
    zephyr/drivers/flash.h, which is not among the sources; the device
    exposes a write-block size and an erase-value byte. *)
Record flash_parameters : Type := mk_flash_parameters {
  write_block_size : Z;
  erase_value : Z
}.

(** ** The backing device

    The driver and the device core are outside the layer.  They are an
    interface over a world [W]: the two predicates and queries read the
    world, the three I/O primitives may change it and return the driver's
    [int] result ([drv_read] also returns the buffer as the driver left
    it). *)
Class FlashDriver (W : Type) : Type := {
  drv_is_ready : device_ptr -> W -> bool;
  drv_read : device_ptr -> Z -> buffer -> Z -> W -> Z * buffer * W;
  drv_write : device_ptr -> Z -> buffer -> Z -> W -> Z * W;
  drv_erase : device_ptr -> Z -> Z -> W -> Z * W;
  drv_write_block_size : device_ptr -> W -> Z;
  drv_parameters : device_ptr -> W -> flash_parameters
}.

(** A call that leaves the layer, with its arguments as passed. *)
Inductive call : Type :=
| CallIsReady (dev : device_ptr)
| CallRead (dev : device_ptr) (off : Z) (dst : buffer) (len : Z)
| CallWrite (dev : device_ptr) (off : Z) (src : buffer) (len : Z)
| CallErase (dev : device_ptr) (off : Z) (len : Z)
| CallWriteBlockSize (dev : device_ptr)
| CallGetParameters (dev : device_ptr)
| CallUserCb (fa : flash_area) (user_data : void_ptr).

Section FlashMap.

Context {W : Type} `{FlashDriver W}.

(** ** Program state

    [flash_map] is the global [const struct flash_area *flash_map]: NULL,
    or the array it points to.  [world] is everything behind the driver
    interface and the callbacks.  [calls] records, oldest first, the
    calls that left the layer. *)
Record state : Type := mk_state {
  flash_map : option (list flash_area);
  world : W;
  calls : list call
}.

(** The array [flash_map] points to; nothing when it is NULL. *)
Definition table (s : state) : list flash_area :=
  match flash_map s with
  | Some t => t
  | None => []
  end.

(** Modelled from the spec: [flash_map_entries] is defined with the table
    by the build configuration, which is not among the sources; it is the
    number of descriptors of the table. *)
Definition flash_map_entries (s : state) : Z := Z.of_nat (length (table s)).

(** ** State passing *)

Definition M (A : Type) : Type := state -> A * state.

Definition ret {A : Type} (a : A) : M A := fun s => (a, s).

Definition bind {A B : Type} (m : M A) (k : A -> M B) : M B :=
  fun s => let (a, s') := m s in k a s'.

Notation "'do' x <- m ; k" := (bind m (fun x => k))
  (at level 10, x pattern, m at level 100, k at level 200).

Definition record_call (c : call) (w : W) (s : state) : state :=
  {| flash_map := flash_map s; world := w; calls := calls s ++ [c] |}.

(** The calls a computation makes when run from [s]. *)
Definition issued {A : Type} (m : M A) (s : state) : list call :=
  drop (length (calls s)) (calls (snd (m s))).

(** ** The driver API as the layer calls it (device.h, drivers/flash.h) *)

Definition device_is_ready (dev : device_ptr) : M bool :=
  fun s => (drv_is_ready dev (world s), record_call (CallIsReady dev) (world s) s).

Definition flash_read (dev : device_ptr) (off : Z) (dst : buffer) (len : Z)
  : M (Z * buffer) :=
  fun s =>
    let '(rc, dst', w') := drv_read dev off dst len (world s) in
    ((rc, dst'), record_call (CallRead dev off dst len) w' s).

Definition flash_write (dev : device_ptr) (off : Z) (src : buffer) (len : Z)
  : M Z :=
  fun s =>
    let '(rc, w') := drv_write dev off src len (world s) in
    (rc, record_call (CallWrite dev off src len) w' s).

Definition flash_erase (dev : device_ptr) (off : Z) (len : Z) : M Z :=
  fun s =>
    let '(rc, w') := drv_erase dev off len (world s) in
    (rc, record_call (CallErase dev off len) w' s).

Definition flash_get_write_block_size (dev : device_ptr) : M Z :=
  fun s => (drv_write_block_size dev (world s),
            record_call (CallWriteBlockSize dev) (world s) s).

Definition flash_get_parameters (dev : device_ptr) : M flash_parameters :=
  fun s => (drv_parameters dev (world s),
            record_call (CallGetParameters dev) (world s) s).

(** A callback of type [flash_area_cb_t]: user code that acts on the
    world, given the descriptor and the user's pointer. *)
Definition flash_area_cb_t : Type := flash_area -> void_ptr -> W -> W.

Definition call_user_cb (user_cb : flash_area_cb_t) (fa : flash_area)
  (user_data : void_ptr) : M unit :=
  fun s => (tt, record_call (CallUserCb fa user_data)
                  (user_cb fa user_data (world s)) s).

(** ** flash_map_priv.h *)

(** Modelled from the spec: [get_flash_area_from_id] is defined in
    flash_map_priv.h, which is not among the sources.  The spec's lookup is
    a linear search over the table for the descriptor with the given id. *)
Fixpoint find_flash_area (idx : Z) (t : list flash_area) : fa_ptr :=
  match t with
  | [] => None
  | fa :: t' => if fa_id fa =? idx then Some fa else find_flash_area idx t'
  end.

Definition get_flash_area_from_id (idx : Z) : M fa_ptr :=
  fun s => (find_flash_area idx (table s), s).

(** Modelled from the spec: [is_in_flash_area_bounds] is defined in
    flash_map_priv.h, which is not among the sources.  The spec's check:
    an access is valid iff [rel_offset >= 0] and
    [rel_offset + length <= descriptor.size], with no overflow in the
    addition. *)
Definition is_in_flash_area_bounds (fa : flash_area) (off len : Z) : bool :=
  (0 <=? off) && (off + len <=? fa_size fa).

(** ** flash_map.c *)

(** The body of the loop of [flash_area_foreach] at index [i], and the
    loop from [i] with [n] iterations left. *)
Definition foreach_step (user_cb : flash_area_cb_t) (user_data : void_ptr)
  (i : nat) : M unit :=
  fun s =>
    match table s !! i with
    | Some fa => call_user_cb user_cb fa user_data s
    | None => (tt, s)
    end.

Fixpoint foreach_loop (user_cb : flash_area_cb_t) (user_data : void_ptr)
  (i n : nat) : M unit :=
  match n with
  | O => ret tt
  | S n' =>
      do _ <- foreach_step user_cb user_data i;
      foreach_loop user_cb user_data (S i) n'
  end.

Definition flash_area_foreach (user_cb : flash_area_cb_t) (user_data : void_ptr)
  : M unit :=
  fun s => foreach_loop user_cb user_data 0 (Z.to_nat (flash_map_entries s)) s.

(** [fap] is the value held by the caller's [*fap] on entry; the second
    component of the result is its value on return. *)
Definition flash_area_open (id : Z) (fap : fa_ptr) : M (Z * fa_ptr) :=
  fun s =>
    match flash_map s with
    | None => (- EACCES, fap, s)
    | Some _ =>
        (do area <- get_flash_area_from_id id;
         match area with
         | None => ret (- ENOENT, fap)
         | Some a =>
             match fa_dev a with
             | None => ret (- ENODEV, fap)
             | Some _ =>
                 do ready <- device_is_ready (fa_dev a);
                 if negb ready then ret (- ENODEV, fap)
                 else ret (0, Some a)
             end
         end) s
    end.

Definition flash_area_close (fa : flash_area) : M unit :=
  ret tt.

Definition flash_area_read (fa : flash_area) (off : Z) (dst : buffer) (len : Z)
  : M (Z * buffer) :=
  if negb (is_in_flash_area_bounds fa off len) then ret (- EINVAL, dst)
  else flash_read (fa_dev fa) (fa_off fa + off) dst len.

Definition flash_area_write (fa : flash_area) (off : Z) (src : buffer) (len : Z)
  : M Z :=
  if negb (is_in_flash_area_bounds fa off len) then ret (- EINVAL)
  else
    do rc <- flash_write (fa_dev fa) (fa_off fa + off) src len;
    ret rc.

Definition flash_area_erase (fa : flash_area) (off : Z) (len : Z) : M Z :=
  if negb (is_in_flash_area_bounds fa off len) then ret (- EINVAL)
  else flash_erase (fa_dev fa) (fa_off fa + off) len.

Definition flash_area_align (fa : flash_area) : M Z :=
  flash_get_write_block_size (fa_dev fa).

Definition flash_area_has_driver (fa : flash_area) : M Z :=
  do ready <- device_is_ready (fa_dev fa);
  if negb ready then ret (- ENODEV) else ret 1.

Definition flash_area_get_device (fa : flash_area) : M device_ptr :=
  ret (fa_dev fa).

Definition flash_area_erased_val (fa : flash_area) : M Z :=
  do param <- flash_get_parameters (fa_dev fa);
  ret (erase_value param).

(** ** Clients of the layer

    A client is a sequence of calls of the ten functions above, with their
    arguments; running it threads the state through the calls. *)
Inductive api_call : Type :=
| Foreach (user_cb : flash_area_cb_t) (user_data : void_ptr)
| Open (id : Z) (fap : fa_ptr)
| Close (fa : flash_area)
| Read (fa : flash_area) (off : Z) (dst : buffer) (len : Z)
| Write (fa : flash_area) (off : Z) (src : buffer) (len : Z)
| Erase (fa : flash_area) (off : Z) (len : Z)
| Align (fa : flash_area)
| HasDriver (fa : flash_area)
| GetDevice (fa : flash_area)
| ErasedVal (fa : flash_area).

Definition run_api (c : api_call) (s : state) : state :=
  match c with
  | Foreach user_cb user_data => snd (flash_area_foreach user_cb user_data s)
  | Open id fap => snd (flash_area_open id fap s)
  | Close fa => snd (flash_area_close fa s)
  | Read fa off dst len => snd (flash_area_read fa off dst len s)
  | Write fa off src len => snd (flash_area_write fa off src len s)
  | Erase fa off len => snd (flash_area_erase fa off len s)
  | Align fa => snd (flash_area_align fa s)
  | HasDriver fa => snd (flash_area_has_driver fa s)
  | GetDevice fa => snd (flash_area_get_device fa s)
  | ErasedVal fa => snd (flash_area_erased_val fa s)
  end.

Definition run_apis (cs : list api_call) (s : state) : state :=
  fold_left (fun s' c => run_api c s') cs s.

Definition is_open_or_close (c : api_call) : bool :=
  match c with
  | Open _ _ | Close _ => true
  | _ => false
  end.

End FlashMap.

Arguments state : clear implicits.
Arguments M : clear implicits.
Arguments flash_area_cb_t : clear implicits.
Arguments api_call : clear implicits.

(** ** A simulated flash device

    One device whose cells are a list of bytes, with a readiness flag: an
    instance of the driver interface on which the layer can be run. *)

Definition EIO : Z := 5.

Record sim_flash : Type := mk_sim_flash {
  sim_ready : bool;
  sim_cells : list Byte.byte
}.

Definition sim_in_range (off len : Z) (w : sim_flash) : bool :=
  (0 <=? off) && (0 <=? len) && (off + len <=? Z.of_nat (length (sim_cells w))).

Definition sim_is_ready (dev : device_ptr) (w : sim_flash) : bool :=
  match dev with
  | Some _ => sim_ready w
  | None => false
  end.

Definition sim_read (dev : device_ptr) (off : Z) (dst : buffer) (len : Z)
  (w : sim_flash) : Z * buffer * sim_flash :=
  if sim_in_range off len w then
    (0, take (Z.to_nat len) (drop (Z.to_nat off) (sim_cells w))
          ++ drop (Z.to_nat len) dst, w)
  else (- EIO, dst, w).

Definition sim_write (dev : device_ptr) (off : Z) (src : buffer) (len : Z)
  (w : sim_flash) : Z * sim_flash :=
  if sim_in_range off len w then
    (0, {| sim_ready := sim_ready w;
           sim_cells := take (Z.to_nat off) (sim_cells w)
                          ++ take (Z.to_nat len) src
                          ++ drop (Z.to_nat (off + len)) (sim_cells w) |})
  else (- EIO, w).

Definition sim_erase (dev : device_ptr) (off : Z) (len : Z) (w : sim_flash)
  : Z * sim_flash :=
  if sim_in_range off len w then
    (0, {| sim_ready := sim_ready w;
           sim_cells := take (Z.to_nat off) (sim_cells w)
                          ++ replicate (Z.to_nat len) Byte.xff
                          ++ drop (Z.to_nat (off + len)) (sim_cells w) |})
  else (- EIO, w).

#[global] Instance sim_driver : FlashDriver sim_flash := {
  drv_is_ready := sim_is_ready;
  drv_read := sim_read;
  drv_write := sim_write;
  drv_erase := sim_erase;
  drv_write_block_size := fun _ _ => 4;
  drv_parameters := fun _ _ => {| write_block_size := 4; erase_value := 255 |}
}.

(** Two areas on device 0, and states over a 64-byte erased device. *)
Definition area1 : flash_area :=
  {| fa_id := 1; fa_dev := Some 0%nat; fa_off := 16; fa_size := 16 |}.

Definition area2 : flash_area :=
  {| fa_id := 2; fa_dev := Some 0%nat; fa_off := 32; fa_size := 32 |}.

Definition sim_erased (ready : bool) : sim_flash :=
  {| sim_ready := ready; sim_cells := replicate 64 Byte.xff |}.

Definition sim_state (ready : bool) : state sim_flash :=
  {| flash_map := Some [area1; area2]; world := sim_erased ready; calls := [] |}.

(** The state in which the table pointer is NULL. *)
Definition sim_state_null : state sim_flash :=
  {| flash_map := None; world := sim_erased true; calls := [] |}.

(** A callback that marks the cell numbered by the descriptor's id. *)
Definition mark_cb : flash_area_cb_t sim_flash :=
  fun fa _ w =>
    {| sim_ready := sim_ready w;
       sim_cells := <[Z.to_nat (fa_id fa) := Byte.x00]> (sim_cells w) |}.

(** ** Device calls and the areas they fall in *)

(** The calls that transfer or destroy data on the device. *)
Definition is_io (c : call) : bool :=
  match c with
  | CallRead _ _ _ _ | CallWrite _ _ _ _ | CallErase _ _ _ => true
  | _ => false
  end.

(** An I/O call addresses the device of [fa], from an offset not before
    the start of the area up to one not past its end. *)
Definition io_in_area (fa : flash_area) (c : call) : Prop :=
  match c with
  | CallRead dev off _ len | CallWrite dev off _ len | CallErase dev off len =>
      dev = fa_dev fa /\ fa_off fa <= off /\ off + len <= fa_off fa + fa_size fa
  | _ => False
  end.

(** The handle an API call is made on; open and foreach take none. *)
Definition api_handle {W : Type} (c : api_call W) : option flash_area :=
  match c with
  | Foreach _ _ | Open _ _ => None
  | Close fa | Read fa _ _ _ | Write fa _ _ _ | Erase fa _ _
  | Align fa | HasDriver fa | GetDevice fa | ErasedVal fa => Some fa
  end.

(** * The MCUmgr client sample (samples/hello_world/src/other.c)

    The sample's characters are bytes and its character arrays are lists
    of bytes of the array's size.  A store outside an array, or a read
    outside one, is undefined in C: the functions that index arrays return
    [None] there.  Format strings are kept as the source writes them.
    The [LOG_ERR] and [LOG_INF] lines are diagnostics and are not part of
    the model. *)

From stdpp Require Import strings.
Local Open Scope Z_scope.

Definition ENOEXEC : Z := 8.
Definition ENOMEM : Z := 12.
Definition EBUSY : Z := 16.

(** ** C integers on the 32-bit target: conversion to [int] and [size_t] *)

Definition to_int (z : Z) : Z := (z + 2 ^ 31) mod 2 ^ 32 - 2 ^ 31.
Definition to_size_t (z : Z) : Z := z mod 2 ^ 32.

(** ** Character arrays and the C library *)

Definition NUL : Byte.byte := Byte.x00.

(** [bs] stored into array [a] from index [pos]. *)
Definition store (a : buffer) (pos : Z) (bs : buffer) : option buffer :=
  if (0 <=? pos) && (pos + Z.of_nat (length bs) <=? Z.of_nat (length a))
  then Some (take (Z.to_nat pos) a ++ bs
               ++ drop (Z.to_nat pos + length bs) a)
  else None.

(** The string an array holds: its bytes before the first NUL. *)
Fixpoint cstr (a : buffer) : buffer :=
  match a with
  | [] => []
  | c :: a' => if Byte.eqb c NUL then [] else c :: cstr a'
  end.

Fixpoint is_prefix (p s : buffer) : bool :=
  match p, s with
  | [], _ => true
  | _ :: _, [] => false
  | a :: p', b :: s' => Byte.eqb a b && is_prefix p' s'
  end.

(** [strstr(s, needle)] on the string [s]: the index of the first
    occurrence of [needle], [None] for the null pointer. *)
Fixpoint strstr (s needle : buffer) : option nat :=
  match s with
  | [] => if is_prefix needle [] then Some 0%nat else None
  | _ :: s' => if is_prefix needle s then Some 0%nat else S <$> strstr s' needle
  end.

(** [strchr(s, c)] for a [c] other than NUL. *)
Fixpoint strchr (s : buffer) (c : Byte.byte) : option nat :=
  match s with
  | [] => None
  | b :: s' => if Byte.eqb b c then Some 0%nat else S <$> strchr s' c
  end.

(** [strcpy(dst, src)]: the string and its terminator. *)
Definition strcpy (dst src : buffer) : option buffer :=
  store dst 0 (src ++ [NUL]).

(** [strncpy(dst, src, n)]: [n] bytes, the string's first ones and then
    NULs when the string is shorter. *)
Definition strncpy (dst src : buffer) (n : Z) : option buffer :=
  store dst 0 (take (Z.to_nat n) src
                 ++ replicate (Z.to_nat n - length src) NUL).

(** The digit characters of [%x]: 0123456789abcdef. *)
Definition hex_digit (n : N) : Byte.byte :=
  nth (N.to_nat n)
    [Byte.x30; Byte.x31; Byte.x32; Byte.x33; Byte.x34; Byte.x35; Byte.x36;
     Byte.x37; Byte.x38; Byte.x39; Byte.x61; Byte.x62; Byte.x63; Byte.x64;
     Byte.x65; Byte.x66] Byte.x30.

(** What [%x] prints for an [unsigned int]: the hexadecimal digits, most
    significant first, without padding; at most eight of them. *)
Fixpoint fmt_x_from (fuel : nat) (v : N) (acc : buffer) : buffer :=
  match fuel with
  | O => acc
  | S fuel' =>
      let acc' := hex_digit (v mod 16) :: acc in
      if (v / 16 =? 0)%N then acc' else fmt_x_from fuel' (v / 16) acc'
  end.

Definition fmt_x (v : N) : buffer := fmt_x_from 8 v [].

(** [snprintk(str + pos, size, "%x", v)] where [str] is the array [a]:
    as snprintf, at most [size - 1] characters and a NUL are stored when
    [size] is not 0, and the result is the number of characters the value
    takes, stored or not. *)
Definition snprintk_x (a : buffer) (pos size : Z) (v : N) : option (Z * buffer) :=
  let ds := fmt_x v in
  if size =? 0 then Some (Z.of_nat (length ds), a)
  else
    a' ← store a pos (take (Z.to_nat (size - 1)) ds ++ [NUL]);
    Some (Z.of_nat (length ds), a').

(** ** hash_to_string *)

(** The loop of [hash_to_string] from index [i] with [n] rounds left, and
    what follows it. *)
Fixpoint hash_to_string_from (n i : nat) (hash_string : buffer)
  (string_size buf_size len : Z) (hash : buffer) : option (Z * buffer) :=
  match n with
  | O =>
      hash_string' ← store hash_string len [NUL];
      Some (0, hash_string')
  | S n' =>
      h ← hash !! i;
      '(k, hash_string') ←
        snprintk_x hash_string len (to_size_t (buf_size - len)) (Byte.to_N h);
      let len' := to_int (len + k) in
      if string_size <=? to_size_t len' then Some (-1, hash_string')
      else hash_to_string_from n' (S i) hash_string' string_size buf_size
             len' hash
  end.

Definition hash_to_string (hash_string : buffer) (string_size : Z)
  (hash : buffer) : option (Z * buffer) :=
  hash_to_string_from 32 0 hash_string string_size (to_int string_size) 0 hash.

(** The digits of the bytes of [h], one after the other. *)
Definition hex_string (h : buffer) : buffer :=
  concat (map (fun b => fmt_x (Byte.to_N b)) h).

(** ** The shell and the libraries behind the sample *)

(** An argument of a format string. *)
Inductive fmt_arg : Type :=
| ArgInt (n : Z)
| ArgStr (s : buffer).

(** What the command handlers send to the shell. *)
Inductive shell_out : Type :=
| ShellPrint (fmt : string) (args : list fmt_arg)
| ShellError (fmt : string) (args : list fmt_arg)
| ShellHelp.

(** [struct mcumgr_image_data] and [struct mcumgr_image_state], declared
    in a header that is not among the sources: the fields are the ones
    other.c reads. *)
Record mcumgr_image_data : Type := mk_mcumgr_image_data {
  img_num : Z;
  slot_num : Z;
  version : buffer;
  hash : buffer;
  flags_active : bool;
  flags_bootable : bool;
  flags_pending : bool;
  flags_confirmed : bool
}.

Record mcumgr_image_state : Type := mk_mcumgr_image_state {
  image_list : list mcumgr_image_data;
  image_list_length : Z
}.

(** The DFU target, FOTA download, event manager and work queue
    libraries, as functions on a state [E] of their own.  Each returns the
    [int] the C function returns; the two whose result other.c drops
    return the new state only.  [lib_dfu_target_smp_image_list_get] gets
    the caller's structure and returns it as the library left it. *)
Class SmpLibs (E : Type) : Type := {
  lib_dfu_target_smp_client_init : E -> Z * E;
  lib_dfu_target_smp_recovery_mode_enable : E -> E;
  lib_app_event_manager_init : E -> Z * E;
  lib_fota_download_smp_init : E -> Z * E;
  lib_fota_download_start_with_image_type :
    buffer -> buffer -> Z -> Z -> Z -> E -> Z * E;
  lib_k_work_submit : E -> E;
  lib_dfu_target_init : Z -> Z -> E -> Z * E;
  lib_dfu_target_schedule_update : Z -> E -> Z * E;
  lib_dfu_target_done : bool -> E -> Z * E;
  lib_dfu_target_reset : E -> Z * E;
  lib_dfu_target_smp_image_list_get :
    mcumgr_image_state -> E -> Z * mcumgr_image_state * E
}.

(** A call into the libraries, with its arguments and what it returned. *)
Inductive lib_call : Type :=
| LibClientInit (ret : Z)
| LibRecoveryModeEnable
| LibEventManagerInit (ret : Z)
| LibFotaSmpInit (ret : Z)
| LibFotaStart (host file : buffer) (sec_tag pdn_id fragment_size : Z) (ret : Z)
| LibWorkSubmit
| LibDfuInit (img_num file_size : Z) (ret : Z)
| LibScheduleUpdate (img_num : Z) (ret : Z)
| LibDfuDone (successful : bool) (ret : Z)
| LibDfuReset (ret : Z)
| LibImageListGet (ret : Z).

Section SmpClient.

Context {E : Type} `{SmpLibs E}.

(** [IMG_MGMT_HASH_LEN] is defined in a header that is not among the
    sources. *)
Variable IMG_MGMT_HASH_LEN : Z.

(** The sample's state: the libraries, the two static arrays
    [fota_path] and [fota_host], and the records of the calls made and of
    the shell output, oldest first. *)
Record app_state : Type := mk_app_state {
  libs : E;
  fota_path : buffer;
  fota_host : buffer;
  lib_calls : list lib_call;
  shell : list shell_out
}.

(** A function of the sample: a new state and a result, or [None] when it
    indexes outside an array. *)
Definition App (A : Type) : Type := app_state -> option (A * app_state).

Definition aret {A : Type} (a : A) : App A := fun st => Some (a, st).

Definition abind {A B : Type} (m : App A) (k : A -> App B) : App B :=
  fun st =>
    match m st with
    | Some (a, st') => k a st'
    | None => None
    end.

Notation "'do' x <- m ; k" := (abind m (fun x => k))
  (at level 10, x pattern, m at level 100, k at level 200).

Definition in_array {A : Type} (o : option A) : App A :=
  fun st =>
    match o with
    | Some a => Some (a, st)
    | None => None
    end.

Definition with_libs (e : E) (c : lib_call) (st : app_state) : app_state :=
  {| libs := e; fota_path := fota_path st; fota_host := fota_host st;
     lib_calls := lib_calls st ++ [c]; shell := shell st |}.

(** A library function that returns an [int]. *)
Definition call_lib (f : E -> Z * E) (c : Z -> lib_call) : App Z :=
  fun st => let (r, e) := f (libs st) in Some (r, with_libs e (c r) st).

(** A library function whose result is dropped. *)
Definition call_lib_void (f : E -> E) (c : lib_call) : App unit :=
  fun st => Some (tt, with_libs (f (libs st)) c st).

Definition to_shell (o : shell_out) : App unit :=
  fun st =>
    Some (tt, {| libs := libs st; fota_path := fota_path st;
                 fota_host := fota_host st; lib_calls := lib_calls st;
                 shell := shell st ++ [o] |}).

Definition shell_print (fmt : string) (args : list fmt_arg) : App unit :=
  to_shell (ShellPrint fmt args).

Definition shell_error (fmt : string) (args : list fmt_arg) : App unit :=
  to_shell (ShellError fmt args).

Definition shell_help : App unit := to_shell ShellHelp.

Definition set_fota_path (a : buffer) : App unit :=
  fun st =>
    Some (tt, {| libs := libs st; fota_path := a; fota_host := fota_host st;
                 lib_calls := lib_calls st; shell := shell st |}).

Definition set_fota_host (a : buffer) : App unit :=
  fun st =>
    Some (tt, {| libs := libs st; fota_path := fota_path st; fota_host := a;
                 lib_calls := lib_calls st; shell := shell st |}).

(** ** other.c *)

(** The body of the loop of [print_image_list] on the [i]-th element, then
    the loop on; [hash_string] is the local array, which lives across the
    rounds. *)
Fixpoint print_image_list_from (n i : nat) (il : mcumgr_image_state)
  (hash_string : buffer) : App unit :=
  match n with
  | O => aret tt
  | S n' =>
      do list <- in_array (image_list il !! i);
      do _ <- (if flags_active list
               then shell_print "Primary Image(%d) slot(%d)"
                      [ArgInt (img_num list); ArgInt (slot_num list)]
               else shell_print "Secondary Image(%d) slot(%d)"
                      [ArgInt (img_num list); ArgInt (slot_num list)]);
      do _ <- shell_print "       Version: %s" [ArgStr (cstr (version list))];
      do _ <- shell_print "       Bootable(%d) Pending(%d) Confirmed(%d)"
                [ArgInt (Z.b2z (flags_bootable list));
                 ArgInt (Z.b2z (flags_pending list));
                 ArgInt (Z.b2z (flags_confirmed list))];
      do r <- in_array (hash_to_string hash_string
                          (IMG_MGMT_HASH_LEN * 2 + 1) (hash list));
      do _ <- (if fst r =? 0
               then shell_print "       Hash: %s" [ArgStr (cstr (snd r))]
               else aret tt);
      print_image_list_from n' (S i) il (snd r)
  end.

(** [hash_string] is the local array as the function finds it. *)
Definition print_image_list (il : mcumgr_image_state) (hash_string : buffer)
  : App unit :=
  print_image_list_from (Z.to_nat (image_list_length il)) 0 il hash_string.

(** [fota_download_callback] returns from every case; the cases that do
    anything write to the log. *)
Definition fota_download_callback : App unit := aret tt.

Definition start_fota_download : App unit :=
  fun st =>
    (do _ <- call_lib
               (lib_fota_download_start_with_image_type
                  (cstr (fota_host st)) (cstr (fota_path st)) (-1) 0 0)
               (LibFotaStart (cstr (fota_host st)) (cstr (fota_path st))
                  (-1) 0 0);
     aret tt) st.

Definition fota_start : App Z :=
  do ret <- call_lib lib_fota_download_smp_init LibFotaSmpInit;
  if negb (ret =? 0) then aret (- EBUSY)
  else
    do _ <- call_lib_void lib_k_work_submit LibWorkSubmit;
    aret 0.

(** [image_list] and [hash_string] are the locals of [fota_update] and of
    [print_image_list] as the functions find them. *)
Definition fota_update (image_list : mcumgr_image_state) (hash_string : buffer)
  : App Z :=
  do ret <- call_lib (lib_dfu_target_init 0 2048) (LibDfuInit 0 2048);
  if negb (ret =? 0) then aret (- EBUSY)
  else
    do ret <- call_lib (lib_dfu_target_schedule_update 1) (LibScheduleUpdate 1);
    if negb (ret =? 0) then aret (- EBUSY)
    else
      fun st =>
        let '(ret, image_list', e) :=
          lib_dfu_target_smp_image_list_get image_list (libs st) in
        (if negb (ret =? 0) then aret ret
         else
           do _ <- print_image_list image_list' hash_string;
           aret ret) (with_libs e (LibImageListGet ret) st).


Definition nrf52840_reset_api : App Z := aret 0.


(** [argv] is the argument vector: [argv[1]] is its second string. *)
Definition cmd_download (argc : Z) (argv : list buffer) : App Z :=
  if argc <? 1 then
    do _ <- shell_error "no arguments or path(s)\n" [];
    do _ <- shell_help;
    aret (- EINVAL)
  else
    do uri <- in_array (argv !! 1%nat);
    match strstr uri (String.list_byte_of_string "://") with
    | None => aret (- EINVAL)
    | Some s0 =>
        let s := (s0 + length (String.list_byte_of_string "://"))%nat in
        match strchr (drop s uri) Byte.x2f with
        | None => aret (- EINVAL)
        | Some e0 =>
            let e := (s + e0)%nat in
            fun st =>
              (do path <- in_array (strcpy (fota_path st) (drop (S e) uri));
               do _ <- set_fota_path path;
               let len := to_int (Z.of_nat e) in
               if to_size_t len =? Z.of_nat (length (fota_host st))
               then aret (- ENOMEM)
               else
                 do host <- in_array (strncpy (fota_host st) uri
                                        (to_size_t len));
                 do host <- in_array (store host len [NUL]);
                 do _ <- set_fota_host host;
                 do ret <- fota_start;
                 if ret <? 0 then
                   do _ <- shell_error
                             "can't do write operation, request failed (err %d)\n"
                             [ArgInt ret];
                   aret (- ENOEXEC)
                 else aret 0) st
        end
    end.

Definition cmd_update (image_list : mcumgr_image_state) (hash_string : buffer)
  : App Z :=
  do ret <- fota_update image_list hash_string;
  if ret <? 0 then
    do _ <- shell_error
              "can't do Update operation, request failed (err %d)\n"
              [ArgInt ret];
    aret (- ENOEXEC)
  else
    do _ <- shell_print "Update OK" [];
    aret 0.


Definition cmd_reset : App Z :=
  do ret <- call_lib lib_dfu_target_reset LibDfuReset;
  do ret <- (if negb (ret =? 0) then nrf52840_reset_api else aret ret);
  if ret <? 0 then
    do _ <- shell_error
              "can't do RESET operation, request failed (err %d)\n"
              [ArgInt ret];
    aret (- ENOEXEC)
  else
    do _ <- shell_print "Reset OK" [];
    aret 0.

Definition cmd_read_image_list (image_list : mcumgr_image_state)
  (hash_string : buffer) : App Z :=
  fun st =>
    let '(ret, image_list', e) :=
      lib_dfu_target_smp_image_list_get image_list (libs st) in
    (if ret <? 0 then
       do _ <- shell_error
                 "can't do RESET operation, request failed (err %d)\n"
                 [ArgInt ret];
       aret (- ENOEXEC)
     else
       do _ <- print_image_list image_list' hash_string;
       aret 0) (with_libs e (LibImageListGet ret) st).

End SmpClient.

Arguments app_state : clear implicits.
Arguments App : clear implicits.

(** What an argument string is: it holds no NUL, and its length fits a
    [ptrdiff_t]. *)
Definition is_c_string (a : buffer) : Prop :=
  (NUL ∉ a) /\ Z.of_nat (length a) < 2 ^ 31.

(** The characters the parser of [cmd_download] looks for. *)
Definition scheme_mark : buffer := String.list_byte_of_string "://".
Definition slash : Byte.byte := Byte.x2f.
Definition colon : Byte.byte := Byte.x3a.

(** [out] added to the shell output of [st]. *)
Definition with_shell {E : Type} (st : app_state E) (out : list shell_out)
  : app_state E :=
  {| libs := libs st; fota_path := fota_path st; fota_host := fota_host st;
     lib_calls := lib_calls st; shell := shell st ++ out |}.

(** The lines [print_image_list] prints for one image when its hash is
    converted. *)
Definition image_lines (img : mcumgr_image_data) : list shell_out :=
  [ShellPrint (if flags_active img then "Primary Image(%d) slot(%d)"
               else "Secondary Image(%d) slot(%d)")
     [ArgInt (img_num img); ArgInt (slot_num img)];
   ShellPrint "       Version: %s" [ArgStr (cstr (version img))];
   ShellPrint "       Bootable(%d) Pending(%d) Confirmed(%d)"
     [ArgInt (Z.b2z (flags_bootable img)); ArgInt (Z.b2z (flags_pending img));
      ArgInt (Z.b2z (flags_confirmed img))];
   ShellPrint "       Hash: %s" [ArgStr (hex_string (take 32 (hash img)))]].

(** ** Scripted libraries

    An instance of the library interface whose functions return fixed
    results, on which the sample can be run. *)
Record mock_libs : Type := mk_mock_libs {
  mock_client_init : Z;
  mock_event_manager_init : Z;
  mock_smp_init : Z;
  mock_fota_start : Z;
  mock_dfu_init : Z;
  mock_schedule_update : Z;
  mock_dfu_done : Z;
  mock_dfu_reset : Z;
  mock_image_list_get : Z;
  mock_images : mcumgr_image_state
}.

#[global] Instance mock_smp_libs : SmpLibs mock_libs := {
  lib_dfu_target_smp_client_init := fun m => (mock_client_init m, m);
  lib_dfu_target_smp_recovery_mode_enable := fun m => m;
  lib_app_event_manager_init := fun m => (mock_event_manager_init m, m);
  lib_fota_download_smp_init := fun m => (mock_smp_init m, m);
  lib_fota_download_start_with_image_type :=
    fun _ _ _ _ _ m => (mock_fota_start m, m);
  lib_k_work_submit := fun m => m;
  lib_dfu_target_init := fun _ _ m => (mock_dfu_init m, m);
  lib_dfu_target_schedule_update := fun _ m => (mock_schedule_update m, m);
  lib_dfu_target_done := fun _ m => (mock_dfu_done m, m);
  lib_dfu_target_reset := fun m => (mock_dfu_reset m, m);
  lib_dfu_target_smp_image_list_get :=
    fun il m => (mock_image_list_get m,
                 if mock_image_list_get m =? 0 then mock_images m else il, m)
}.

Definition mock_image : mcumgr_image_data :=
  {| img_num := 0; slot_num := 1;
     version := String.list_byte_of_string "1.2.3" ++ [NUL];
     hash := replicate 16 Byte.x0b ++ replicate 16 Byte.xab;
     flags_active := true; flags_bootable := true;
     flags_pending := false; flags_confirmed := true |}.

(** Libraries that succeed everywhere, except that the reset fails with
    [reset]. *)
Definition mock_ok (reset : Z) : mock_libs :=
  {| mock_client_init := 0; mock_event_manager_init := 0; mock_smp_init := 0;
     mock_fota_start := 0; mock_dfu_init := 0; mock_schedule_update := 0;
     mock_dfu_done := 0; mock_dfu_reset := reset; mock_image_list_get := 0;
     mock_images := {| image_list := [mock_image]; image_list_length := 1 |} |}.

(** The sample at start: both arrays of 128 bytes zeroed. *)
Definition mock_state (m : mock_libs) : app_state mock_libs :=
  {| libs := m; fota_path := replicate 128 NUL; fota_host := replicate 128 NUL;
     lib_calls := []; shell := [] |}.

(** An argument vector for the download command. *)
Definition download_argv : list buffer :=
  [String.list_byte_of_string "download";
   String.list_byte_of_string "https://h.io/a/b"].


(** * Properties *)

Section Properties.

Context {W : Type} `{FlashDriver W}.

Implicit Types (s : state W) (fa : flash_area) (t : list flash_area).
Implicit Types (off len id : Z) (dst src : buffer) (fap : fa_ptr).

(** ** Recorded calls *)

Lemma issued_nil {A : Type} (m : M W A) s :
  calls (snd (m s)) = calls s -> issued m s = [].
Proof.
  intros E. unfold issued. rewrite E. apply drop_all.
Qed.

Lemma issued_app {A : Type} (m : M W A) s (cs : list call) :
  calls (snd (m s)) = calls s ++ cs -> issued m s = cs.
Proof.
  intros E. unfold issued. rewrite E. apply drop_app_length.
Qed.

Lemma issued_ret {A : Type} (a : A) s : issued (ret a) s = [].
Proof. now apply issued_nil. Qed.

Lemma issued_flash_read dev off dst len s :
  issued (flash_read dev off dst len) s = [CallRead dev off dst len].
Proof.
  apply issued_app. unfold flash_read.
  destruct (drv_read dev off dst len (world s)) as [[rc dst'] w']. reflexivity.
Qed.

Lemma issued_flash_write dev off src len s :
  issued (flash_write dev off src len) s = [CallWrite dev off src len].
Proof.
  apply issued_app. unfold flash_write.
  destruct (drv_write dev off src len (world s)) as [rc w']. reflexivity.
Qed.

Lemma issued_flash_erase dev off len s :
  issued (flash_erase dev off len) s = [CallErase dev off len].
Proof.
  apply issued_app. unfold flash_erase.
  destruct (drv_erase dev off len (world s)) as [rc w']. reflexivity.
Qed.

(** ** The bounds check *)

Lemma is_in_flash_area_bounds_spec fa off len :
  is_in_flash_area_bounds fa off len = true <->
  0 <= off /\ off + len <= fa_size fa.
Proof.
  unfold is_in_flash_area_bounds.
  rewrite andb_true_iff, Z.leb_le, Z.leb_le. reflexivity.
Qed.

Lemma is_in_flash_area_bounds_false fa off len :
  is_in_flash_area_bounds fa off len = false <->
  ~ (0 <= off /\ off + len <= fa_size fa).
Proof.
  rewrite <- is_in_flash_area_bounds_spec.
  destruct (is_in_flash_area_bounds fa off len); split; congruence.
Qed.

(** The addition [fa->fa_off + off] of an in-bounds request stays between
    the start and the end of the area: it cannot overflow an [off_t] that
    holds the area's end, when the length is not negative. *)
Lemma in_bounds_offset_range fa off len :
  is_in_flash_area_bounds fa off len = true -> 0 <= len ->
  fa_off fa <= fa_off fa + off <= fa_off fa + fa_size fa.
Proof.
  rewrite is_in_flash_area_bounds_spec. lia.
Qed.

(** A write is the driver's write: the local [rc] is returned as it is. *)
Lemma flash_write_ret dev off src len s :
  bind (flash_write dev off src len) (fun rc => ret rc) s
    = flash_write dev off src len s.
Proof.
  unfold bind, ret. now destruct (flash_write dev off src len s).
Qed.

(** The three gated operations, on each side of the check. *)
Lemma gated_in_bounds fa off len dst src s :
  is_in_flash_area_bounds fa off len = true ->
  flash_area_read fa off dst len s
    = flash_read (fa_dev fa) (fa_off fa + off) dst len s /\
  flash_area_write fa off src len s
    = flash_write (fa_dev fa) (fa_off fa + off) src len s /\
  flash_area_erase fa off len s
    = flash_erase (fa_dev fa) (fa_off fa + off) len s.
Proof.
  intros Hb. unfold flash_area_read, flash_area_write, flash_area_erase.
  rewrite Hb. cbn [negb]. repeat split. apply flash_write_ret.
Qed.

Lemma gated_out_of_bounds fa off len dst src s :
  is_in_flash_area_bounds fa off len = false ->
  flash_area_read fa off dst len s = (- EINVAL, dst, s) /\
  flash_area_write fa off src len s = (- EINVAL, s) /\
  flash_area_erase fa off len s = (- EINVAL, s).
Proof.
  intros Hb. unfold flash_area_read, flash_area_write, flash_area_erase.
  rewrite Hb. repeat split.
Qed.

Lemma issued_eq {A : Type} (m m' : M W A) s :
  m s = m' s -> issued m s = issued m' s.
Proof. unfold issued. now intros ->. Qed.

(** C1: [flash_area_read], [flash_area_write] and [flash_area_erase] reach
    the device exactly when [0 <= off] and [off + len <= fa_size]; on any
    violation each returns [-EINVAL] and leaves the state as it was, the
    record of calls included: the device is not called. *)
Theorem bounds_check_gates_device fa off len dst src s :
  (0 <= off /\ off + len <= fa_size fa ->
     issued (flash_area_read fa off dst len) s
       = [CallRead (fa_dev fa) (fa_off fa + off) dst len] /\
     issued (flash_area_write fa off src len) s
       = [CallWrite (fa_dev fa) (fa_off fa + off) src len] /\
     issued (flash_area_erase fa off len) s
       = [CallErase (fa_dev fa) (fa_off fa + off) len]) /\
  (~ (0 <= off /\ off + len <= fa_size fa) ->
     flash_area_read fa off dst len s = (- EINVAL, dst, s) /\
     flash_area_write fa off src len s = (- EINVAL, s) /\
     flash_area_erase fa off len s = (- EINVAL, s)).
Proof.
  split; intros Hb.
  - apply is_in_flash_area_bounds_spec in Hb.
    destruct (gated_in_bounds fa off len dst src s Hb) as (Er & Ew & Ee).
    rewrite (issued_eq _ _ s Er), (issued_eq _ _ s Ew), (issued_eq _ _ s Ee).
    split; [apply issued_flash_read|].
    split; [apply issued_flash_write | apply issued_flash_erase].
  - apply is_in_flash_area_bounds_false in Hb.
    exact (gated_out_of_bounds fa off len dst src s Hb).
Qed.

(** C3: within bounds, each of read, write and erase is the driver's
    operation at [fa_off + off] with the caller's buffer and length: the
    result is the driver's result, the world is the one the driver left, and
    that one call is recorded. *)
Theorem in_bounds_forwards_to_device fa off len dst src s :
  0 <= off -> off + len <= fa_size fa ->
  flash_area_read fa off dst len s
    = (let '(rc, dst', w') :=
         drv_read (fa_dev fa) (fa_off fa + off) dst len (world s) in
       (rc, dst',
        record_call (CallRead (fa_dev fa) (fa_off fa + off) dst len) w' s)) /\
  flash_area_write fa off src len s
    = (let '(rc, w') :=
         drv_write (fa_dev fa) (fa_off fa + off) src len (world s) in
       (rc, record_call (CallWrite (fa_dev fa) (fa_off fa + off) src len) w' s)) /\
  flash_area_erase fa off len s
    = (let '(rc, w') :=
         drv_erase (fa_dev fa) (fa_off fa + off) len (world s) in
       (rc, record_call (CallErase (fa_dev fa) (fa_off fa + off) len) w' s)).
Proof.
  intros H0 H1.
  assert (Hb : is_in_flash_area_bounds fa off len = true)
    by now apply is_in_flash_area_bounds_spec.
  destruct (gated_in_bounds fa off len dst src s Hb) as (-> & -> & ->).
  repeat split.
Qed.

(** ** Lookup and open *)

Lemma find_flash_area_Some id t (a : flash_area) :
  find_flash_area id t = Some a -> a ∈ t /\ fa_id a = id.
Proof.
  induction t as [|b t IH]; cbn [find_flash_area]; [discriminate|].
  destruct (fa_id b =? id) eqn:E.
  - intros [= ->]. split; [left | now apply Z.eqb_eq].
  - intros Hf. destruct (IH Hf) as [Hin Hid]. split; [now right | exact Hid].
Qed.

Lemma find_flash_area_None id t :
  find_flash_area id t = None <-> (forall a, a ∈ t -> fa_id a <> id).
Proof.
  induction t as [|b t IH]; cbn [find_flash_area].
  - split; [|reflexivity]. intros _ a Ha. inversion Ha.
  - destruct (fa_id b =? id) eqn:E.
    + apply Z.eqb_eq in E. split; [discriminate|].
      intros Habs. exfalso. apply (Habs b); [left | exact E].
    + apply Z.eqb_neq in E. rewrite IH. split.
      * intros Ht a Ha. inversion Ha; subst; [exact E | now apply Ht].
      * intros Ht a Ha. apply Ht. now right.
Qed.

(** An id is present in the table exactly when the lookup resolves it. *)
Lemma find_flash_area_present id t :
  (exists a, a ∈ t /\ fa_id a = id) <-> (exists a, find_flash_area id t = Some a).
Proof.
  split.
  - intros (a & Ha & Hid). destruct (find_flash_area id t) as [b|] eqn:E; [eauto|].
    exfalso. exact (proj1 (find_flash_area_None id t) E a Ha Hid).
  - intros (a & Hf). exists a. now apply find_flash_area_Some.
Qed.

(** [flash_area_open], path by path. *)
Lemma flash_area_open_cases id fap s :
  flash_area_open id fap s =
  match flash_map s with
  | None => (- EACCES, fap, s)
  | Some t =>
      match find_flash_area id t with
      | None => (- ENOENT, fap, s)
      | Some a =>
          match fa_dev a with
          | None => (- ENODEV, fap, s)
          | Some _ =>
              if drv_is_ready (fa_dev a) (world s)
              then (0, Some a, record_call (CallIsReady (fa_dev a)) (world s) s)
              else (- ENODEV, fap, record_call (CallIsReady (fa_dev a)) (world s) s)
          end
      end
  end.
Proof.
  unfold flash_area_open, get_flash_area_from_id, table, bind.
  destruct (flash_map s) as [t|]; [|reflexivity].
  destruct (find_flash_area id t) as [a|]; [|reflexivity].
  destruct (fa_dev a) as [d|] eqn:Ed; [|reflexivity].
  unfold device_is_ready. now destruct (drv_is_ready (Some d) (world s)).
Qed.

(** C2, amended: on an initialized table, [flash_area_open] returns
    [-ENOENT] when no descriptor has the id, [-ENODEV] when the resolved
    descriptor's device is not ready, and on success hands out the
    descriptor resolved for the id; the table and the world are as before,
    and at most the readiness check is recorded. *)
Theorem open_on_initialized_table id fap s t :
  flash_map s = Some t ->
  let '(rc, fap', s') := flash_area_open id fap s in
  ((forall a, a ∈ t -> fa_id a <> id) -> rc = - ENOENT) /\
  (forall a, find_flash_area id t = Some a ->
     drv_is_ready (fa_dev a) (world s) = false -> rc = - ENODEV) /\
  (rc = 0 ->
     exists a, find_flash_area id t = Some a /\ a ∈ t /\ fa_id a = id /\
               fap' = Some a) /\
  flash_map s' = flash_map s /\ world s' = world s /\
  (calls s' = calls s \/ exists dev, calls s' = calls s ++ [CallIsReady dev]).
Proof.
  intros Ht. rewrite flash_area_open_cases, Ht.
  destruct (find_flash_area id t) as [a|] eqn:Ef.
  - pose proof (find_flash_area_Some _ _ _ Ef) as [Hin Hid].
    assert (Hpres : ~ (forall b, b ∈ t -> fa_id b <> id))
      by (intros Habs; exact (Habs a Hin Hid)).
    destruct (fa_dev a) as [d|] eqn:Ed;
      [destruct (drv_is_ready (Some d) (world s)) eqn:Er|];
      (split; [tauto|]); (split; [|split; [|split; [|split]]]);
      cbn [flash_map world calls record_call];
      try reflexivity; try assumption; try (intros [=]);
      try (right; eauto; fail); try (now left).
    + intros b [= <-]. rewrite Ed, Er. discriminate.
    + exists a. auto.
  - split; [reflexivity|]. split; [discriminate|].
    split; [intros [=]|]. repeat split; [assumption | now left].
Qed.

(** C9: [flash_area_open] leaves [*fap] as it found it on each of its
    error returns, and stores the resolved descriptor on success only. *)
Theorem open_writes_fap_on_success_only id fap s :
  let '(rc, fap', s') := flash_area_open id fap s in
  (rc = 0 \/ rc = - EACCES \/ rc = - ENOENT \/ rc = - ENODEV) /\
  (rc <> 0 -> fap' = fap) /\
  (rc = 0 -> fap' = find_flash_area id (table s) /\ fap' <> None).
Proof.
  rewrite flash_area_open_cases. unfold table.
  destruct (flash_map s) as [t|].
  - destruct (find_flash_area id t) as [a|].
    + destruct (fa_dev a) as [d|].
      * destruct (drv_is_ready (Some d) (world s)).
        -- repeat split; auto; congruence.
        -- repeat split; auto; unfold ENODEV; discriminate.
      * repeat split; auto; unfold ENODEV; discriminate.
    + repeat split; auto; unfold ENOENT; discriminate.
  - repeat split; auto; unfold EACCES; discriminate.
Qed.

(** C10: with the table pointer NULL, [flash_area_open] returns [-EACCES]
    for every id, which is none of [-ENOENT], [-ENODEV], [-EINVAL]; the
    state and [*fap] are untouched, so no readiness check was made. *)
Theorem open_null_table_EACCES id fap s :
  flash_map s = None ->
  flash_area_open id fap s = (- EACCES, fap, s) /\
  issued (flash_area_open id fap) s = [] /\
  - EACCES <> - ENOENT /\ - EACCES <> - ENODEV /\ - EACCES <> - EINVAL.
Proof.
  intros Hnull.
  assert (E : flash_area_open id fap s = (- EACCES, fap, s))
    by (rewrite flash_area_open_cases, Hnull; reflexivity).
  split; [exact E|]. split.
  - apply issued_nil. now rewrite E.
  - repeat split; discriminate.
Qed.

(** [flash_area_open] changes neither the table nor the world. *)
Lemma flash_area_open_frame id fap s :
  flash_map (snd (flash_area_open id fap s)) = flash_map s /\
  world (snd (flash_area_open id fap s)) = world s.
Proof.
  rewrite flash_area_open_cases.
  destruct (flash_map s) as [t|] eqn:Em; [|now split].
  destruct (find_flash_area id t) as [a|]; [|now split].
  destruct (fa_dev a) as [d|]; [|now split].
  destruct (drv_is_ready (Some d) (world s)); now split.
Qed.

(** Opens and closes, in any number and order, change neither. *)
Lemma run_apis_open_close_frame (cs : list (api_call W)) :
  Forall (fun c => is_open_or_close c = true) cs ->
  forall s, flash_map (run_apis cs s) = flash_map s /\
            world (run_apis cs s) = world s.
Proof.
  induction 1 as [|c cs Hc _ IH]; intros s; [now split|].
  cbn [run_apis fold_left]. fold (run_apis cs (run_api c s)).
  destruct (IH (run_api c s)) as [-> ->].
  destruct c; try discriminate Hc; cbn [run_api].
  - apply flash_area_open_frame.
  - now split.
Qed.

(** ** Enumeration *)

(** The loop from index [length pre] over the rest [post] of the table
    runs the callback on the descriptors of [post], first to last. *)
Lemma foreach_loop_spec (user_cb : flash_area_cb_t W) (user_data : void_ptr) :
  forall (post pre : list flash_area) s,
    table s = pre ++ post ->
    foreach_loop user_cb user_data (length pre) (length post) s
    = (tt, {| flash_map := flash_map s;
              world := fold_left (fun w fa => user_cb fa user_data w) post (world s);
              calls := calls s ++ map (fun fa => CallUserCb fa user_data) post |}).
Proof.
  induction post as [|a post IH]; intros pre s Ht.
  - cbn. unfold ret. destruct s as [fm w cs]. cbn. now rewrite app_nil_r.
  - cbn [length foreach_loop]. unfold bind, foreach_step.
    rewrite Ht, list_lookup_middle by reflexivity.
    unfold call_user_cb.
    set (s1 := record_call _ _ s).
    assert (Ht1 : table s1 = (pre ++ [a]) ++ post)
      by (rewrite <- app_assoc; exact Ht).
    specialize (IH (pre ++ [a]) s1 Ht1).
    rewrite length_app, Nat.add_1_r in IH. rewrite IH.
    subst s1. cbn. now rewrite <- app_assoc.
Qed.

Lemma flash_area_foreach_spec (user_cb : flash_area_cb_t W) (user_data : void_ptr) s :
  flash_area_foreach user_cb user_data s
  = (tt, {| flash_map := flash_map s;
            world := fold_left (fun w fa => user_cb fa user_data w)
                       (table s) (world s);
            calls := calls s
                       ++ map (fun fa => CallUserCb fa user_data) (table s) |}).
Proof.
  unfold flash_area_foreach, flash_map_entries. rewrite Nat2Z.id.
  exact (foreach_loop_spec user_cb user_data (table s) [] s eq_refl).
Qed.

(** C4: [flash_area_foreach] calls the callback on the descriptors of the
    table, one call per table index in ascending order, each on the world
    the previous call left; what it does depends on the table and the
    world alone, so it is the same after any open and close. *)
Theorem foreach_visits_table_in_order
  (user_cb : flash_area_cb_t W) (user_data : void_ptr) s :
  issued (flash_area_foreach user_cb user_data) s
    = map (fun fa => CallUserCb fa user_data) (table s) /\
  world (snd (flash_area_foreach user_cb user_data s))
    = fold_left (fun w fa => user_cb fa user_data w) (table s) (world s) /\
  (forall s', flash_map s' = flash_map s -> world s' = world s ->
     fst (flash_area_foreach user_cb user_data s')
       = fst (flash_area_foreach user_cb user_data s) /\
     issued (flash_area_foreach user_cb user_data) s'
       = issued (flash_area_foreach user_cb user_data) s /\
     world (snd (flash_area_foreach user_cb user_data s'))
       = world (snd (flash_area_foreach user_cb user_data s))) /\
  (forall cs : list (api_call W),
     Forall (fun c => is_open_or_close c = true) cs ->
     let s' := run_apis cs s in
     issued (flash_area_foreach user_cb user_data) s'
       = issued (flash_area_foreach user_cb user_data) s /\
     world (snd (flash_area_foreach user_cb user_data s'))
       = world (snd (flash_area_foreach user_cb user_data s))).
Proof.
  assert (Hi : forall s0, issued (flash_area_foreach user_cb user_data) s0
                 = map (fun fa => CallUserCb fa user_data) (table s0))
    by (intros s0; apply issued_app; now rewrite flash_area_foreach_spec).
  assert (Hw : forall s0, world (snd (flash_area_foreach user_cb user_data s0))
                 = fold_left (fun w fa => user_cb fa user_data w)
                     (table s0) (world s0))
    by (intros s0; now rewrite flash_area_foreach_spec).
  assert (Hsame : forall s', flash_map s' = flash_map s -> world s' = world s ->
            issued (flash_area_foreach user_cb user_data) s'
              = issued (flash_area_foreach user_cb user_data) s /\
            world (snd (flash_area_foreach user_cb user_data s'))
              = world (snd (flash_area_foreach user_cb user_data s))).
  { intros s' Hm Hwd. rewrite !Hi, !Hw. unfold table. now rewrite Hm, Hwd. }
  split; [apply Hi|]. split; [apply Hw|]. split.
  - intros s' Hm Hwd. split; [|now apply Hsame].
    now rewrite !flash_area_foreach_spec.
  - intros cs Hcs s'. subst s'.
    apply Hsame; now apply run_apis_open_close_frame.
Qed.

(** ** Frame *)

Lemma run_api_flash_map (c : api_call W) s :
  flash_map (run_api c s) = flash_map s.
Proof.
  destruct c as [user_cb user_data|id fap|fa|fa off dst len|fa off src len
                |fa off len|fa|fa|fa|fa]; cbn [run_api].
  - now rewrite flash_area_foreach_spec.
  - apply flash_area_open_frame.
  - reflexivity.
  - unfold flash_area_read, flash_read, ret.
    destruct (is_in_flash_area_bounds fa off len); cbn [negb]; [|reflexivity].
    now destruct (drv_read _ _ _ _ _) as [[rc dst'] w'].
  - unfold flash_area_write.
    destruct (is_in_flash_area_bounds fa off len); cbn [negb]; [|reflexivity].
    rewrite flash_write_ret. unfold flash_write.
    now destruct (drv_write _ _ _ _ _) as [rc w'].
  - unfold flash_area_erase, flash_erase, ret.
    destruct (is_in_flash_area_bounds fa off len); cbn [negb]; [|reflexivity].
    now destruct (drv_erase _ _ _ _) as [rc w'].
  - reflexivity.
  - unfold flash_area_has_driver, bind, device_is_ready.
    now destruct (drv_is_ready (fa_dev fa) (world s)).
  - reflexivity.
  - reflexivity.
Qed.

(** C5: no operation of the layer changes the table: after each of the
    ten, and so after any sequence of them, [flash_map] is the pointer, and
    points to the descriptors, it did at the start. *)
Theorem operations_preserve_table :
  (forall (c : api_call W) s, flash_map (run_api c s) = flash_map s) /\
  (forall (cs : list (api_call W)) s,
     flash_map (run_apis cs s) = flash_map s /\ table (run_apis cs s) = table s).
Proof.
  split; [exact run_api_flash_map|].
  assert (Hm : forall (cs : list (api_call W)) s,
             flash_map (run_apis cs s) = flash_map s).
  { induction cs as [|c cs IH]; intros s; [reflexivity|].
    cbn [run_apis fold_left]. fold (run_apis cs (run_api c s)).
    rewrite IH. apply run_api_flash_map. }
  intros cs s. split; [apply Hm|]. unfold table. now rewrite Hm.
Qed.

(** ** Queries *)

(** C6: [flash_area_align] is the device's write-block size and
    [flash_area_erased_val] the erase value of the device's parameters; two
    descriptors on the same device get the same answers, whatever their
    offsets and sizes. *)
Theorem align_and_erased_val_from_device fa s :
  fst (flash_area_align fa s) = drv_write_block_size (fa_dev fa) (world s) /\
  fst (flash_area_erased_val fa s)
    = erase_value (drv_parameters (fa_dev fa) (world s)) /\
  (forall fa', fa_dev fa' = fa_dev fa ->
     flash_area_align fa' s = flash_area_align fa s /\
     flash_area_erased_val fa' s = flash_area_erased_val fa s).
Proof.
  split; [reflexivity|]. split; [reflexivity|].
  intros fa' Hdev.
  unfold flash_area_align, flash_area_erased_val. now rewrite Hdev.
Qed.

(** C7: [flash_area_has_driver] returns [-ENODEV] exactly when the device
    is not ready in the state it is called in, and 1 otherwise; read, write
    and erase make no readiness check: with the device not ready, an
    in-bounds request is still handed to the driver. *)
Theorem has_driver_checks_readiness_now fa s :
  (fst (flash_area_has_driver fa s) = - ENODEV <->
   drv_is_ready (fa_dev fa) (world s) = false) /\
  (fst (flash_area_has_driver fa s) = 1 <->
   drv_is_ready (fa_dev fa) (world s) = true) /\
  snd (flash_area_has_driver fa s)
    = record_call (CallIsReady (fa_dev fa)) (world s) s /\
  (forall off len dst src,
     drv_is_ready (fa_dev fa) (world s) = false ->
     is_in_flash_area_bounds fa off len = true ->
     flash_area_read fa off dst len s
       = flash_read (fa_dev fa) (fa_off fa + off) dst len s /\
     flash_area_write fa off src len s
       = flash_write (fa_dev fa) (fa_off fa + off) src len s /\
     flash_area_erase fa off len s
       = flash_erase (fa_dev fa) (fa_off fa + off) len s) /\
  (forall off len dst src dev,
     (CallIsReady dev ∉ issued (flash_area_read fa off dst len) s) /\
     (CallIsReady dev ∉ issued (flash_area_write fa off src len) s) /\
     (CallIsReady dev ∉ issued (flash_area_erase fa off len) s)).
Proof.
  unfold flash_area_has_driver, bind, device_is_ready.
  split; [|split; [|split; [|split]]].
  - destruct (drv_is_ready (fa_dev fa) (world s)); cbn; split;
      unfold ENODEV; discriminate || reflexivity.
  - destruct (drv_is_ready (fa_dev fa) (world s)); cbn; split;
      unfold ENODEV; discriminate || reflexivity.
  - now destruct (drv_is_ready (fa_dev fa) (world s)).
  - intros off len dst src _ Hb. now apply gated_in_bounds.
  - intros off len dst src dev.
    destruct (is_in_flash_area_bounds fa off len) eqn:Hb.
    + destruct (gated_in_bounds fa off len dst src s Hb) as (Er & Ew & Ee).
      rewrite (issued_eq _ _ s Er), (issued_eq _ _ s Ew), (issued_eq _ _ s Ee).
      rewrite issued_flash_read, issued_flash_write, issued_flash_erase.
      repeat split; intros Hel; apply list_elem_of_singleton in Hel;
        discriminate.
    + destruct (gated_out_of_bounds fa off len dst src s Hb) as (Er & Ew & Ee).
      rewrite (issued_nil _ s (f_equal (fun x => calls (snd x)) Er)).
      rewrite (issued_nil _ s (f_equal (fun x => calls (snd x)) Ew)).
      rewrite (issued_nil _ s (f_equal (fun x => calls (snd x)) Ee)).
      repeat split; apply not_elem_of_nil.
Qed.

(** C8: [flash_area_close] does nothing: the state after it is the state
    before it, no call is made, and whatever is run next runs as it would
    have run without the close. *)
Theorem close_is_noop fa s :
  flash_area_close fa s = (tt, s) /\
  issued (flash_area_close fa) s = [] /\
  (forall (A : Type) (m : M W A), m (snd (flash_area_close fa s)) = m s).
Proof.
  repeat split. apply issued_ret.
Qed.

End Properties.

(** * The layer on the simulated device *)

(** ** Scenarios of the specification, scaled to the 64-byte device *)

(** The last two bytes of area 1 are read at absolute offset 30; one byte
    further the request is refused and the device is not called. *)
Example read_at_end_of_area :
  flash_area_read area1 14 [Byte.x00; Byte.x00] 2 (sim_state true)
  = (0, [Byte.xff; Byte.xff],
     {| flash_map := Some [area1; area2]; world := sim_erased true;
        calls := [CallRead (Some 0%nat) 30 [Byte.x00; Byte.x00] 2] |}).
Proof. reflexivity. Qed.

Example read_past_end_of_area :
  flash_area_read area1 15 [Byte.x00; Byte.x00] 2 (sim_state true)
  = (- EINVAL, [Byte.x00; Byte.x00], sim_state true).
Proof. reflexivity. Qed.

Example open_unknown_id :
  fst (flash_area_open 99 None (sim_state true)) = (- ENOENT, None).
Proof. reflexivity. Qed.

(** What is written within an area is read back. *)
Example write_then_read :
  let s1 := snd (flash_area_write area2 4 [Byte.x12; Byte.x34] 2 (sim_state true)) in
  fst (flash_area_read area2 4 [Byte.x00; Byte.x00] 2 s1)
  = (0, [Byte.x12; Byte.x34]).
Proof. reflexivity. Qed.

(** With the device not ready, open fails and [flash_area_has_driver] says
    so, but a handle obtained earlier still reads. *)
Example handle_outlives_readiness :
  fst (flash_area_open 1 None (sim_state true)) = (0, Some area1) /\
  fst (flash_area_open 1 None (sim_state false)) = (- ENODEV, None) /\
  fst (flash_area_has_driver area1 (sim_state false)) = - ENODEV /\
  fst (flash_area_read area1 0 [Byte.x00] 1 (sim_state false)) = (0, [Byte.xff]).
Proof. repeat split. Qed.

Example foreach_marks_both_areas :
  take 3 (sim_cells (world (snd (flash_area_foreach mark_cb 0 (sim_state true)))))
  = [Byte.xff; Byte.x00; Byte.x00] /\
  calls (snd (flash_area_foreach mark_cb 0 (sim_state true)))
  = [CallUserCb area1 0; CallUserCb area2 0].
Proof. split; reflexivity. Qed.

(** ** Instances of the conditional theorems *)

Lemma bounds_check_gates_device_witness :
  issued (flash_area_erase area1 14 2) (sim_state true)
    = [CallErase (Some 0%nat) 30 2] /\
  flash_area_erase area1 15 2 (sim_state true) = (- EINVAL, sim_state true) /\
  flash_area_erase area1 (-1) 1 (sim_state true) = (- EINVAL, sim_state true).
Proof.
  split; [|split].
  - apply (proj1 (bounds_check_gates_device area1 14 2 [] [] (sim_state true))).
    cbn. lia.
  - apply (proj2 (bounds_check_gates_device area1 15 2 [] [] (sim_state true))).
    cbn. lia.
  - apply (proj2 (bounds_check_gates_device area1 (-1) 1 [] [] (sim_state true))).
    cbn. lia.
Defined.

Lemma foreach_visits_table_in_order_witness :
  let s' := run_apis [Open 2 None; Close area2; Open 9 None] (sim_state true) in
  issued (flash_area_foreach mark_cb 0) s'
    = [CallUserCb area1 0; CallUserCb area2 0] /\
  world (snd (flash_area_foreach mark_cb 0 s'))
    = world (snd (flash_area_foreach mark_cb 0 (sim_state true))).
Proof.
  pose proof (foreach_visits_table_in_order mark_cb 0 (sim_state true))
    as (Hi & _ & _ & Hoc).
  destruct (Hoc [Open 2 None; Close area2; Open 9 None]) as [Ei Ew].
  - repeat constructor.
  - cbv zeta. split; [rewrite Ei; exact Hi | exact Ew].
Defined.

Lemma align_and_erased_val_from_device_witness :
  flash_area_align area2 (sim_state true) = flash_area_align area1 (sim_state true) /\
  flash_area_erased_val area2 (sim_state true)
    = flash_area_erased_val area1 (sim_state true).
Proof.
  apply (align_and_erased_val_from_device area1 (sim_state true)). reflexivity.
Defined.

Lemma has_driver_checks_readiness_now_witness :
  fst (flash_area_has_driver area1 (sim_state false)) = - ENODEV /\
  flash_area_read area1 0 [Byte.x00] 1 (sim_state false)
    = flash_read (Some 0%nat) 16 [Byte.x00] 1 (sim_state false).
Proof.
  pose proof (has_driver_checks_readiness_now area1 (sim_state false))
    as (Hnd & _ & _ & Hfwd & _).
  split.
  - apply Hnd. reflexivity.
  - apply (Hfwd 0 1 [Byte.x00] []); reflexivity.
Defined.

Lemma open_writes_fap_on_success_only_witness :
  snd (fst (flash_area_open 1 (Some area2) (sim_state false))) = Some area2 /\
  snd (fst (flash_area_open 9 (Some area2) (sim_state true))) = Some area2 /\
  snd (fst (flash_area_open 1 (Some area2) (sim_state true))) = Some area1.
Proof.
  pose proof (open_writes_fap_on_success_only 1 (Some area2) (sim_state false))
    as T1.
  pose proof (open_writes_fap_on_success_only 9 (Some area2) (sim_state true))
    as T2.
  pose proof (open_writes_fap_on_success_only 1 (Some area2) (sim_state true))
    as T3.
  cbn in T1, T2, T3.
  destruct T1 as (_ & T1 & _), T2 as (_ & T2 & _), T3 as (_ & _ & T3).
  split; [|split].
  - apply T1. discriminate.
  - apply T2. discriminate.
  - apply T3. reflexivity.
Defined.

Lemma in_bounds_forwards_to_device_witness :
  flash_area_read area1 14 [Byte.x00; Byte.x00] 2 (sim_state true)
    = (let '(rc, dst', w') :=
         drv_read (fa_dev area1) (fa_off area1 + 14) [Byte.x00; Byte.x00] 2
           (world (sim_state true)) in
       (rc, dst',
        record_call
          (CallRead (fa_dev area1) (fa_off area1 + 14) [Byte.x00; Byte.x00] 2)
          w' (sim_state true))) /\
  flash_area_write area1 14 [Byte.x12; Byte.x34] 2 (sim_state true)
    = (let '(rc, w') :=
         drv_write (fa_dev area1) (fa_off area1 + 14) [Byte.x12; Byte.x34] 2
           (world (sim_state true)) in
       (rc, record_call
              (CallWrite (fa_dev area1) (fa_off area1 + 14) [Byte.x12; Byte.x34] 2)
              w' (sim_state true))) /\
  flash_area_erase area1 14 2 (sim_state true)
    = (let '(rc, w') :=
         drv_erase (fa_dev area1) (fa_off area1 + 14) 2 (world (sim_state true)) in
       (rc, record_call (CallErase (fa_dev area1) (fa_off area1 + 14) 2)
              w' (sim_state true))).
Proof.
  apply (in_bounds_forwards_to_device area1 14 2
           [Byte.x00; Byte.x00] [Byte.x12; Byte.x34] (sim_state true)).
  - lia.
  - cbn. lia.
Defined.

Lemma open_on_initialized_table_witness :
  flash_map (sim_state false) = Some [area1; area2] /\
  (let '(rc, fap', s') := flash_area_open 2 None (sim_state false) in
   ((forall a, a ∈ [area1; area2] -> fa_id a <> 2) -> rc = - ENOENT) /\
   (forall a, find_flash_area 2 [area1; area2] = Some a ->
      drv_is_ready (fa_dev a) (world (sim_state false)) = false ->
      rc = - ENODEV) /\
   (rc = 0 ->
      exists a, find_flash_area 2 [area1; area2] = Some a /\
                a ∈ [area1; area2] /\ fa_id a = 2 /\ fap' = Some a) /\
   flash_map s' = flash_map (sim_state false) /\
   world s' = world (sim_state false) /\
   (calls s' = calls (sim_state false) \/
    exists dev, calls s' = calls (sim_state false) ++ [CallIsReady dev])).
Proof.
  split; [reflexivity|].
  apply (open_on_initialized_table 2 None (sim_state false) [area1; area2]).
  reflexivity.
Defined.

Lemma open_null_table_EACCES_witness :
  flash_map sim_state_null = None /\
  flash_area_open 1 (Some area2) sim_state_null
    = (- EACCES, Some area2, sim_state_null).
Proof.
  split; [reflexivity|].
  apply (open_null_table_EACCES 1 (Some area2) sim_state_null). reflexivity.
Defined.

(** ** The NULL table against the NotFound rule *)

(** C2, as stated: id 7 is the id of no descriptor of the table, and
    [flash_area_open] does not answer [-ENOENT]; it answers [-EACCES]. *)
Lemma open_absent_id_not_ENOENT :
  ~ ((forall a, a ∈ table sim_state_null -> fa_id a <> 7) ->
     fst (fst (flash_area_open 7 None sim_state_null)) = - ENOENT).
Proof.
  intros Hclaim.
  assert (Habs : forall a, a ∈ table sim_state_null -> fa_id a <> 7)
    by (intros a Ha; inversion Ha).
  specialize (Hclaim Habs). vm_compute in Hclaim. discriminate.
Qed.

(** * Further properties of the flash map *)

Section Traces.

Context {W : Type} `{FlashDriver W}.

Implicit Types (s : state W) (fa : flash_area) (c : api_call W).

(** What one API call adds to the record of calls: every I/O call it adds
    is on its handle's device, inside its handle's area. *)
Lemma run_api_calls c s :
  exists l, calls (run_api c s) = calls s ++ l /\
    forall x, x ∈ l -> is_io x = true ->
      exists fa, api_handle c = Some fa /\ io_in_area fa x.
Proof.
  destruct c as [user_cb user_data|id fap|fa|fa off dst len|fa off src len
                |fa off len|fa|fa|fa|fa]; cbn [run_api api_handle].
  - exists (map (fun fa => CallUserCb fa user_data) (table s)).
    rewrite flash_area_foreach_spec. split; [reflexivity|].
    intros x Hx. apply list_elem_of_fmap in Hx as (fa & -> & _). discriminate.
  - rewrite flash_area_open_cases.
    destruct (flash_map s) as [t|];
      [|exists []; split; [now rewrite app_nil_r | intros x Hx; inversion Hx]].
    destruct (find_flash_area id t) as [a|];
      [|exists []; split; [now rewrite app_nil_r | intros x Hx; inversion Hx]].
    destruct (fa_dev a) as [d|];
      [|exists []; split; [now rewrite app_nil_r | intros x Hx; inversion Hx]].
    exists [CallIsReady (Some d)].
    split; [now destruct (drv_is_ready (Some d) (world s))|].
    intros x Hx. apply list_elem_of_singleton in Hx as ->. discriminate.
  - exists []. split; [now rewrite app_nil_r | intros x Hx; inversion Hx].
  - destruct (is_in_flash_area_bounds fa off len) eqn:Hb.
    + destruct (gated_in_bounds fa off len dst [] s Hb) as (-> & _ & _).
      exists [CallRead (fa_dev fa) (fa_off fa + off) dst len]. split.
      * unfold flash_read. now destruct (drv_read _ _ _ _ _) as [[rc d'] w'].
      * intros x Hx _. apply list_elem_of_singleton in Hx as ->.
        exists fa. split; [reflexivity|]. cbn.
        apply is_in_flash_area_bounds_spec in Hb. split; [reflexivity | lia].
    + destruct (gated_out_of_bounds fa off len dst [] s Hb) as (-> & _ & _).
      exists []. split; [now rewrite app_nil_r | intros x Hx; inversion Hx].
  - destruct (is_in_flash_area_bounds fa off len) eqn:Hb.
    + destruct (gated_in_bounds fa off len [] src s Hb) as (_ & -> & _).
      exists [CallWrite (fa_dev fa) (fa_off fa + off) src len]. split.
      * unfold flash_write. now destruct (drv_write _ _ _ _ _) as [rc w'].
      * intros x Hx _. apply list_elem_of_singleton in Hx as ->.
        exists fa. split; [reflexivity|]. cbn.
        apply is_in_flash_area_bounds_spec in Hb. split; [reflexivity | lia].
    + destruct (gated_out_of_bounds fa off len [] src s Hb) as (_ & -> & _).
      exists []. split; [now rewrite app_nil_r | intros x Hx; inversion Hx].
  - destruct (is_in_flash_area_bounds fa off len) eqn:Hb.
    + destruct (gated_in_bounds fa off len [] [] s Hb) as (_ & _ & ->).
      exists [CallErase (fa_dev fa) (fa_off fa + off) len]. split.
      * unfold flash_erase. now destruct (drv_erase _ _ _ _) as [rc w'].
      * intros x Hx _. apply list_elem_of_singleton in Hx as ->.
        exists fa. split; [reflexivity|]. cbn.
        apply is_in_flash_area_bounds_spec in Hb. split; [reflexivity | lia].
    + destruct (gated_out_of_bounds fa off len [] [] s Hb) as (_ & _ & ->).
      exists []. split; [now rewrite app_nil_r | intros x Hx; inversion Hx].
  - exists [CallWriteBlockSize (fa_dev fa)]. split; [reflexivity|].
    intros x Hx. apply list_elem_of_singleton in Hx as ->. discriminate.
  - exists [CallIsReady (fa_dev fa)]. split.
    + unfold flash_area_has_driver, bind, device_is_ready.
      now destruct (drv_is_ready (fa_dev fa) (world s)).
    + intros x Hx. apply list_elem_of_singleton in Hx as ->. discriminate.
  - exists []. split; [now rewrite app_nil_r | intros x Hx; inversion Hx].
  - exists [CallGetParameters (fa_dev fa)]. split; [reflexivity|].
    intros x Hx. apply list_elem_of_singleton in Hx as ->. discriminate.
Qed.

(** X1: whatever sequence of API calls a client makes, the record of calls
    only grows, and every read, write or erase that reaches the device is
    on the device and inside the area of a handle the client made a call
    on. *)
Theorem device_io_stays_in_area (cs : list (api_call W)) s :
  exists l, calls (run_apis cs s) = calls s ++ l /\
    forall x, x ∈ l -> is_io x = true ->
      exists fa, Some fa ∈ map api_handle cs /\ io_in_area fa x.
Proof.
  revert s. induction cs as [|c cs IH]; intros s.
  - exists []. split; [cbn; now rewrite app_nil_r | intros x Hx; inversion Hx].
  - cbn [run_apis fold_left]. fold (run_apis cs (run_api c s)).
    destruct (IH (run_api c s)) as (l2 & E2 & H2).
    destruct (run_api_calls c s) as (l1 & E1 & H1).
    exists (l1 ++ l2). split; [now rewrite E2, E1, app_assoc|].
    intros x Hx Hio. apply elem_of_app in Hx as [Hx|Hx].
    + destruct (H1 x Hx Hio) as (fa & Hh & Hin).
      exists fa. split; [|exact Hin]. cbn [map]. rewrite <- Hh. left.
    + destruct (H2 x Hx Hio) as (fa & Hh & Hin).
      exists fa. split; [|exact Hin]. cbn [map]. now right.
Qed.

(** X2: a handle that [flash_area_open] returned with 0 is a descriptor of
    the table with the id asked for and a device that is there and ready:
    [flash_area_has_driver] on it, right after, returns 1, and opening the
    id again returns the same handle. *)
Theorem opened_handle_is_usable (id : Z) (fap : fa_ptr) s fa :
  fst (flash_area_open id fap s) = (0, Some fa) ->
  let s' := snd (flash_area_open id fap s) in
  fa ∈ table s /\ fa_id fa = id /\ fa_dev fa <> None /\
  fst (flash_area_has_driver fa s') = 1 /\
  (forall fap', fst (flash_area_open id fap' s') = (0, Some fa)).
Proof.
  intros Hopen s'.
  assert (Hfr : flash_map s' = flash_map s /\ world s' = world s)
    by apply flash_area_open_frame.
  destruct Hfr as [Hm Hw]. clearbody s'.
  rewrite flash_area_open_cases in Hopen. unfold table.
  destruct (flash_map s) as [t|] eqn:Em; [|discriminate Hopen].
  destruct (find_flash_area id t) as [a|] eqn:Ef; [|discriminate Hopen].
  destruct (fa_dev a) as [d|] eqn:Ed; [|discriminate Hopen].
  destruct (drv_is_ready (Some d) (world s)) eqn:Er; [|discriminate Hopen].
  cbn in Hopen. injection Hopen as <-.
  destruct (find_flash_area_Some _ _ _ Ef) as [Hin Hid].
  split; [exact Hin|]. split; [exact Hid|]. split; [now rewrite Ed|]. split.
  - unfold flash_area_has_driver, bind, device_is_ready.
    now rewrite Hw, Ed, Er.
  - intros fap'. rewrite flash_area_open_cases, Hm, Ef, Ed, Hw, Er.
    reflexivity.
Qed.

(** With ids that are unique, the lookup finds every descriptor of the
    table under its own id. *)
Lemma find_flash_area_NoDup (t : list flash_area) fa :
  NoDup (map fa_id t) -> fa ∈ t -> find_flash_area (fa_id fa) t = Some fa.
Proof.
  induction t as [|b t IH]; intros Hnd Hin; [inversion Hin|].
  cbn [map] in Hnd. apply NoDup_cons in Hnd as [Hb Hnd].
  cbn [find_flash_area]. apply elem_of_cons in Hin as [->|Hin].
  - now rewrite Z.eqb_refl.
  - destruct (fa_id b =? fa_id fa) eqn:Eb; [|now apply IH].
    apply Z.eqb_eq in Eb. exfalso. apply Hb. rewrite Eb.
    apply list_elem_of_fmap. eauto.
Qed.

(** X14: enumeration and open agree.  The handle of every successful
    open is a descriptor [flash_area_foreach] visits; and when the ids of
    the table are unique, every descriptor [flash_area_foreach] visits whose
    device is there and ready is the handle that opening its id returns. *)
Theorem foreach_and_open_agree (user_cb : flash_area_cb_t W)
  (user_data : void_ptr) s :
  (forall id fap fa,
     fst (flash_area_open id fap s) = (0, Some fa) ->
     CallUserCb fa user_data ∈ issued (flash_area_foreach user_cb user_data) s) /\
  (forall t, flash_map s = Some t -> NoDup (map fa_id t) ->
     forall x, x ∈ issued (flash_area_foreach user_cb user_data) s ->
       exists fa, x = CallUserCb fa user_data /\ fa ∈ t /\
         (fa_dev fa <> None -> drv_is_ready (fa_dev fa) (world s) = true ->
          forall fap, fst (flash_area_open (fa_id fa) fap s) = (0, Some fa))).
Proof.
  assert (Hi : issued (flash_area_foreach user_cb user_data) s
               = map (fun fa => CallUserCb fa user_data) (table s))
    by (apply issued_app; now rewrite flash_area_foreach_spec).
  rewrite Hi. split.
  - intros id fap fa Hopen. rewrite flash_area_open_cases in Hopen.
    unfold table.
    destruct (flash_map s) as [t|]; [|discriminate Hopen].
    destruct (find_flash_area id t) as [a|] eqn:Ef; [|discriminate Hopen].
    destruct (fa_dev a) as [d|]; [|discriminate Hopen].
    destruct (drv_is_ready (Some d) (world s)); [|discriminate Hopen].
    cbn in Hopen. injection Hopen as <-.
    apply list_elem_of_fmap. exists a. split; [reflexivity|].
    now apply find_flash_area_Some in Ef.
  - intros t Ht Hnd x Hx. unfold table in Hx. rewrite Ht in Hx.
    apply list_elem_of_fmap in Hx as (fa & -> & Hin).
    exists fa. split; [reflexivity|]. split; [exact Hin|].
    intros Hdev Hready fap.
    rewrite flash_area_open_cases, Ht, (find_flash_area_NoDup t fa Hnd Hin).
    destruct (fa_dev fa) as [d|]; [|now elim Hdev].
    now rewrite Hready.
Qed.

End Traces.

Lemma foreach_and_open_agree_witness :
  CallUserCb area2 7 ∈ issued (flash_area_foreach mark_cb 7) (sim_state true) /\
  forall x, x ∈ issued (flash_area_foreach mark_cb 7) (sim_state true) ->
    exists fa, x = CallUserCb fa 7 /\ fa ∈ [area1; area2] /\
      (fa_dev fa <> None ->
       drv_is_ready (fa_dev fa) (world (sim_state true)) = true ->
       forall fap,
         fst (flash_area_open (fa_id fa) fap (sim_state true)) = (0, Some fa)).
Proof.
  destruct (foreach_and_open_agree mark_cb 7 (sim_state true)) as [Hto Hfrom].
  split.
  - apply (Hto 2 None area2). reflexivity.
  - apply (Hfrom [area1; area2]); [reflexivity|].
    cbn. repeat constructor; intros Hin;
      repeat (apply elem_of_cons in Hin as [Hin|Hin]; [discriminate Hin|]);
      inversion Hin.
Defined.

Lemma device_io_stays_in_area_witness :
  exists l,
    calls (run_apis [Open 1 None; Read area1 14 [Byte.x00; Byte.x00] 2;
                     Write area2 40 [Byte.x01] 1; Erase area1 15 2]
             (sim_state true))
      = calls (sim_state true) ++ l /\
    forall x, x ∈ l -> is_io x = true ->
      exists fa, Some fa ∈ [None; Some area1; Some area2; Some area1] /\
                 io_in_area fa x.
Proof.
  exact (device_io_stays_in_area
           [Open 1 None; Read area1 14 [Byte.x00; Byte.x00] 2;
            Write area2 40 [Byte.x01] 1; Erase area1 15 2] (sim_state true)).
Defined.

Lemma opened_handle_is_usable_witness :
  fst (flash_area_has_driver area2
         (snd (flash_area_open 2 None (sim_state true)))) = 1.
Proof.
  apply (opened_handle_is_usable 2 None (sim_state true) area2). reflexivity.
Defined.

(** * The MCUmgr client sample *)

(** ** Integer conversions *)

Lemma to_int_small (z : Z) : - 2 ^ 31 <= z < 2 ^ 31 -> to_int z = z.
Proof.
  intros Hz. unfold to_int. rewrite Z.mod_small; lia.
Qed.

Lemma to_size_t_small (z : Z) : 0 <= z < 2 ^ 32 -> to_size_t z = z.
Proof.
  intros Hz. unfold to_size_t. now rewrite Z.mod_small.
Qed.

Lemma to_size_t_to_int (z : Z) : 0 <= z < 2 ^ 32 -> to_size_t (to_int z) = z.
Proof.
  intros Hz. unfold to_size_t, to_int.
  change (2 ^ 32) with 4294967296 in *. change (2 ^ 31) with 2147483648 in *.
  Z.to_euclidean_division_equations. lia.
Qed.

(** ** Arrays *)

Lemma store_Some (a : buffer) (pos : Z) (bs : buffer) :
  0 <= pos -> pos + Z.of_nat (length bs) <= Z.of_nat (length a) ->
  store a pos bs
  = Some (take (Z.to_nat pos) a ++ bs ++ drop (Z.to_nat pos + length bs) a).
Proof.
  intros H0 H1. unfold store.
  now rewrite (proj2 (Z.leb_le _ _) H0), (proj2 (Z.leb_le _ _) H1).
Qed.

Lemma store_None (a : buffer) (pos : Z) (bs : buffer) :
  Z.of_nat (length a) < pos + Z.of_nat (length bs) -> store a pos bs = None.
Proof.
  intros H1. unfold store.
  rewrite (proj2 (Z.leb_gt _ _) H1). now rewrite andb_false_r.
Qed.

Lemma stored_length (a : buffer) (p : nat) (bs : buffer) :
  (p + length bs <= length a)%nat ->
  length (take p a ++ bs ++ drop (p + length bs) a) = length a.
Proof.
  intros Hl. rewrite !length_app, length_take, length_drop. lia.
Qed.

Lemma stored_drop (a : buffer) (p : nat) (bs : buffer) (n : nat) :
  (p + length bs <= n)%nat -> (p <= length a)%nat ->
  drop n (take p a ++ bs ++ drop (p + length bs) a) = drop n a.
Proof.
  intros Hn Hp.
  rewrite app_assoc, drop_app_ge; rewrite length_app, length_take; [|lia].
  rewrite drop_drop. f_equal. lia.
Qed.

Lemma cstr_terminated (s rest : buffer) :
  forallb (fun c => negb (Byte.eqb c NUL)) s = true ->
  cstr (s ++ NUL :: rest) = s.
Proof.
  induction s as [|c s IH]; cbn [forallb app cstr]; [reflexivity|].
  intros Hs. apply andb_true_iff in Hs as [Hc Hs].
  apply negb_true_iff in Hc. rewrite Hc. now rewrite IH.
Qed.

(** ** The digits of a byte *)

Lemma fmt_x_byte_length (b : Byte.byte) :
  length (fmt_x (Byte.to_N b)) = (if (Byte.to_N b <? 16)%N then 1 else 2)%nat.
Proof. destruct b; reflexivity. Qed.

Lemma fmt_x_byte_no_NUL (b : Byte.byte) :
  forallb (fun c => negb (Byte.eqb c NUL)) (fmt_x (Byte.to_N b)) = true.
Proof. destruct b; reflexivity. Qed.

Lemma hex_string_snoc (h : buffer) (b : Byte.byte) :
  hex_string (h ++ [b]) = hex_string h ++ fmt_x (Byte.to_N b).
Proof.
  unfold hex_string. rewrite map_app, concat_app. cbn. now rewrite app_nil_r.
Qed.

Lemma hex_string_no_NUL (h : buffer) :
  forallb (fun c => negb (Byte.eqb c NUL)) (hex_string h) = true.
Proof.
  induction h as [|b h IH]; [reflexivity|].
  unfold hex_string in *. cbn [map concat]. rewrite forallb_app, IH.
  now rewrite fmt_x_byte_no_NUL.
Qed.

(** No padding: a byte below 0x10 gives one character, any other two. *)
Lemma hex_string_length (h : buffer) :
  length (hex_string h)
  = (length h + length (filter (fun b => (16 <= Byte.to_N b)%N) h))%nat.
Proof.
  induction h as [|b h IH]; [reflexivity|].
  unfold hex_string, buffer in *. cbn [map concat]. rewrite length_app, IH.
  rewrite fmt_x_byte_length, filter_cons.
  destruct (Byte.to_N b <? 16)%N eqn:Eb.
  - apply N.ltb_lt in Eb. rewrite decide_False by lia. cbn. lia.
  - apply N.ltb_ge in Eb. rewrite decide_True by lia. cbn. lia.
Qed.

Lemma hex_string_length_bounds (h : buffer) :
  (length h <= length (hex_string h) <= 2 * length h)%nat.
Proof.
  rewrite hex_string_length. unfold buffer in *.
  pose proof (length_filter (fun b => (16 <= Byte.to_N b)%N) h). lia.
Qed.

Lemma hex_string_app (a b : buffer) :
  hex_string (a ++ b) = hex_string a ++ hex_string b.
Proof.
  unfold hex_string. now rewrite map_app, concat_app.
Qed.

Lemma hex_string_take_mono (h : buffer) (i j : nat) :
  (i <= j)%nat ->
  (length (hex_string (take i h)) <= length (hex_string (take j h)))%nat.
Proof.
  intros Hij. replace j with (i + (j - i))%nat by lia.
  rewrite <- take_take_drop, hex_string_app, length_app. lia.
Qed.

(** ** hash_to_string *)

(** The loop, from a state in which the digits of the first [i] bytes are
    in place and fit. *)
Lemma hash_to_string_from_spec (string_size : Z) (hash : buffer) :
  0 <= string_size < 2 ^ 31 ->
  forall (n i : nat) (hs : buffer) (len : Z),
    string_size <= Z.of_nat (length hs) ->
    (i + n <= length hash)%nat ->
    len = Z.of_nat (length (hex_string (take i hash))) ->
    len < string_size \/ (len = string_size /\ n <> 0%nat) ->
    take (Z.to_nat len) hs = hex_string (take i hash) ->
    exists rc hs',
      hash_to_string_from n i hs string_size (to_int string_size) len hash
        = Some (rc, hs') /\
      length hs' = length hs /\
      drop (Z.to_nat string_size) hs' = drop (Z.to_nat string_size) hs /\
      ((rc = 0 /\
        Z.of_nat (length (hex_string (take (i + n) hash))) < string_size /\
        cstr hs' = hex_string (take (i + n) hash)) \/
       (rc = -1 /\
        string_size <= Z.of_nat (length (hex_string (take (i + n) hash))))).
Proof.
  unfold buffer in *.
  intros Hss. induction n as [|n IH]; intros i hs len Hhs Hin Hlen Hfit Hpre.
  - destruct Hfit as [Hfit|[_ Hn]]; [|now elim Hn].
    cbn [hash_to_string_from]. unfold buffer.
    rewrite store_Some by (cbn [length]; lia). cbn [mbind option_bind].
    exists 0, (take (Z.to_nat len) hs ++ [NUL]
                 ++ drop (Z.to_nat len + length [NUL]) hs).
    split; [reflexivity|]. split; [apply stored_length; cbn [length]; lia|].
    split; [apply stored_drop; cbn [length]; lia|].
    left. rewrite Nat.add_0_r. split; [reflexivity|]. split; [lia|].
    rewrite Hpre. apply cstr_terminated, hex_string_no_NUL.
  - destruct (lookup_lt_is_Some_2 hash i) as [h Hh]; [lia|].
    cbn [hash_to_string_from]. unfold buffer. rewrite Hh.
    cbn [mbind option_bind].
    pose proof (take_S_r _ _ _ Hh) as HtS.
    assert (HhexS : hex_string (take (S i) hash)
                    = hex_string (take i hash) ++ fmt_x (Byte.to_N h))
      by (rewrite HtS; apply hex_string_snoc).
    pose proof (fmt_x_byte_length h) as Hds.
    set (ds := fmt_x (Byte.to_N h)) in *.
    assert (Hds12 : (1 <= length ds <= 2)%nat)
      by (destruct (Byte.to_N h <? 16)%N; lia).
    assert (HlenS : Z.of_nat (length (hex_string (take (S i) hash)))
                    = len + Z.of_nat (length ds))
      by (rewrite HhexS, length_app; lia).
    pose proof (hex_string_take_mono hash (S i) (i + S n) ltac:(lia)) as Hmono.
    rewrite (to_int_small string_size) by lia.
    rewrite (to_size_t_small (string_size - len)) by lia.
    unfold snprintk_x. fold ds.
    destruct Hfit as [Hfit|[Hfit _]].
    + (* room for at least the terminator *)
      rewrite (proj2 (Z.eqb_neq _ _)) by lia.
      set (out := take (Z.to_nat (string_size - len - 1)) ds ++ [NUL]).
      assert (Hout : (length out <= Z.to_nat (string_size - len))%nat).
      { unfold out. rewrite length_app, length_take. cbn [length]. lia. }
      rewrite store_Some by lia. cbn [mbind option_bind].
      set (hs1 := take (Z.to_nat len) hs ++ out
                    ++ drop (Z.to_nat len + length out) hs).
      assert (Hl1 : length hs1 = length hs) by (apply stored_length; lia).
      assert (Hd1 : drop (Z.to_nat string_size) hs1
                    = drop (Z.to_nat string_size) hs)
        by (apply stored_drop; lia).
      rewrite to_size_t_to_int by lia.
      destruct (string_size <=? len + Z.of_nat (length ds)) eqn:Hcmp.
      * apply Z.leb_le in Hcmp. exists (-1), hs1.
        split; [reflexivity|]. split; [exact Hl1|]. split; [exact Hd1|].
        right. split; [reflexivity | lia].
      * apply Z.leb_gt in Hcmp. rewrite to_int_small by lia.
        destruct (IH (S i) hs1 (len + Z.of_nat (length ds)))
          as (rc & hs' & Hrun & Hl' & Hd' & Hres).
        -- lia.
        -- lia.
        -- now rewrite HlenS.
        -- left. lia.
        -- rewrite HhexS, <- Hpre. unfold hs1, out.
           rewrite (take_ge ds) by lia.
           rewrite <- (app_assoc ds), (app_assoc _ ds).
           apply take_app_length'.
           rewrite length_app, length_take. lia.
        -- rewrite (to_int_small string_size) in Hrun by lia.
           exists rc, hs'. split; [exact Hrun|].
           split; [congruence|]. split; [congruence|].
           now replace (i + S n)%nat with (S i + n)%nat by lia.
    + (* no room at all: nothing is stored *)
      rewrite (proj2 (Z.eqb_eq _ _)) by lia.
      cbn [mbind option_bind]. rewrite to_size_t_to_int by lia.
      rewrite (proj2 (Z.leb_le _ _)) by lia.
      exists (-1), hs. split; [reflexivity|]. split; [reflexivity|].
      split; [reflexivity|]. right. split; [reflexivity | lia].
Qed.

(** X3: on an array of at least [string_size] bytes and a hash of at
    least 32, [hash_to_string] stores nothing outside the array nor at or
    after index [string_size]; it returns 0 with the array holding the
    digits of the 32 bytes and a NUL when those fit in [string_size - 1]
    characters, and -1 when they do not. *)
Theorem hash_to_string_safe (hash_string : buffer) (string_size : Z)
  (hash : buffer) :
  0 <= string_size < 2 ^ 31 ->
  string_size <= Z.of_nat (length hash_string) ->
  (32 <= length hash)%nat ->
  exists rc hash_string',
    hash_to_string hash_string string_size hash = Some (rc, hash_string') /\
    length hash_string' = length hash_string /\
    drop (Z.to_nat string_size) hash_string'
      = drop (Z.to_nat string_size) hash_string /\
    ((rc = 0 /\
      Z.of_nat (length (hex_string (take 32 hash))) < string_size /\
      cstr hash_string' = hex_string (take 32 hash)) \/
     (rc = -1 /\
      string_size <= Z.of_nat (length (hex_string (take 32 hash))))).
Proof.
  intros Hss Hbuf Hhash.
  apply (hash_to_string_from_spec string_size hash Hss 32 0 hash_string 0);
    try assumption; try reflexivity.
  destruct (Z.eq_dec string_size 0) as [->|Hne]; [right | left]; lia.
Qed.

(** X4: [%x] does not pad, so the string has one character for each of the
    32 bytes and one more for each byte from 0x10 up: 32 to 64 in all.
    [hash_to_string] returns 0 exactly when that count is below
    [string_size]: always from 65 up, never up to 32. *)
Theorem hash_to_string_thresholds (hash_string : buffer) (string_size : Z)
  (hash : buffer) :
  0 <= string_size < 2 ^ 31 ->
  string_size <= Z.of_nat (length hash_string) ->
  (32 <= length hash)%nat ->
  let digits :=
    32 + Z.of_nat (length (filter (fun b => (16 <= Byte.to_N b)%N)
                             (take 32 hash))) in
  32 <= digits <= 64 /\
  (fst <$> hash_to_string hash_string string_size hash = Some 0 <->
   digits < string_size) /\
  (fst <$> hash_to_string hash_string string_size hash = Some (-1) <->
   string_size <= digits) /\
  (65 <= string_size ->
   fst <$> hash_to_string hash_string string_size hash = Some 0) /\
  (string_size <= 32 ->
   fst <$> hash_to_string hash_string string_size hash = Some (-1)).
Proof.
  intros Hss Hbuf Hhash digits.
  assert (Hdig : Z.of_nat (length (hex_string (take 32 hash))) = digits).
  { subst digits. rewrite hex_string_length, length_take. unfold buffer in *.
    lia. }
  assert (Hrange : 32 <= digits <= 64).
  { rewrite <- Hdig. pose proof (hex_string_length_bounds (take 32 hash)) as Hb.
    rewrite length_take in Hb. unfold buffer in *. lia. }
  destruct (hash_to_string_from_spec string_size hash Hss 32 0 hash_string 0)
    as (rc & hs' & Hrun & _ & _ & Hres); try assumption; try reflexivity.
  { destruct (Z.eq_dec string_size 0) as [->|Hne]; [right | left]; lia. }
  fold (hash_to_string hash_string string_size hash) in Hrun.
  rewrite Hrun. cbn [fmap option_fmap option_map fst]. cbn [Nat.add] in Hres.
  rewrite Hdig in Hres.
  split; [exact Hrange|].
  destruct Hres as [(-> & Hlt & _)|(-> & Hge)].
  - split; [tauto|]. split; [split; [discriminate | lia]|].
    split; [reflexivity | lia].
  - split; [split; [discriminate | lia]|]. split; [tauto|].
    split; [lia | reflexivity].
Qed.

Lemma hash_to_string_safe_witness :
  exists rc hash_string',
    hash_to_string (replicate 65 Byte.x41) 40 (replicate 32 Byte.xab)
      = Some (rc, hash_string') /\
    length hash_string' = 65%nat /\
    drop 40 hash_string' = replicate 25 Byte.x41 /\
    ((rc = 0 /\
      Z.of_nat (length (hex_string (take 32 (replicate 32 Byte.xab)))) < 40 /\
      cstr hash_string' = hex_string (take 32 (replicate 32 Byte.xab))) \/
     (rc = -1 /\
      40 <= Z.of_nat (length (hex_string (take 32 (replicate 32 Byte.xab)))))).
Proof.
  apply (hash_to_string_safe (replicate 65 Byte.x41) 40 (replicate 32 Byte.xab)).
  - lia.
  - cbn. lia.
  - cbn. lia.
Defined.

Lemma hash_to_string_thresholds_witness :
  fst <$> hash_to_string (replicate 65 Byte.x41) 65
            (replicate 16 Byte.x0b ++ replicate 16 Byte.xab) = Some 0.
Proof.
  apply (hash_to_string_thresholds (replicate 65 Byte.x41) 65
           (replicate 16 Byte.x0b ++ replicate 16 Byte.xab)).
  - lia.
  - cbn. lia.
  - cbn. lia.
  - lia.
Defined.

(** ** The command handlers *)

Section SmpClientProperties.

Context {E : Type} `{SmpLibs E}.

Implicit Types (st : app_state E).

(** X5: [cmd_reset] cannot fail: when [dfu_target_reset] returns an
    error the fallback [nrf52840_reset_api] replaces it by 0, so the
    handler always prints "Reset OK" and returns 0, and the error message
    is never sent. *)
Theorem cmd_reset_never_fails st :
  cmd_reset st
  = Some (0, {| libs := snd (lib_dfu_target_reset (libs st));
                fota_path := fota_path st; fota_host := fota_host st;
                lib_calls := lib_calls st
                               ++ [LibDfuReset (fst (lib_dfu_target_reset (libs st)))];
                shell := shell st ++ [ShellPrint "Reset OK" []] |}).
Proof.
  unfold cmd_reset, abind, call_lib, nrf52840_reset_api, aret.
  destruct (lib_dfu_target_reset (libs st)) as [r e]. cbn [fst snd].
  destruct (r =? 0) eqn:Er; cbn [negb].
  - apply Z.eqb_eq in Er. subst r. reflexivity.
  - reflexivity.
Qed.



End SmpClientProperties.

(** ** print_image_list *)

Section ImageList.

Context {E : Type} `{SmpLibs E}.

Implicit Types (st : app_state E).

Lemma with_shell_nil st : with_shell st [] = st.
Proof. destruct st. unfold with_shell. cbn. now rewrite app_nil_r. Qed.

Lemma with_shell_app st (a b : list shell_out) :
  with_shell (with_shell st a) b = with_shell st (a ++ b).
Proof. unfold with_shell. cbn. now rewrite app_assoc. Qed.

(** The loop over the rest of a list whose hashes have their 32 bytes,
    with a [hash_string] of 65 bytes or more: every hash is converted. *)
Lemma print_image_list_from_spec (HL : Z) (il : mcumgr_image_state) :
  32 <= HL < 2 ^ 30 ->
  Forall (fun img => (32 <= length (hash img))%nat) (image_list il) ->
  forall (rest pre : list mcumgr_image_data) (hs : buffer) st,
    image_list il = pre ++ rest ->
    HL * 2 + 1 <= Z.of_nat (length hs) ->
    print_image_list_from HL (length rest) (length pre) il hs st
    = Some (tt, with_shell st (concat (map image_lines rest))).
Proof.
  intros HHL Hall. induction rest as [|img rest IH]; intros pre hs st Hil Hhs.
  - cbn. unfold aret. now rewrite with_shell_nil.
  - assert (Himg : (32 <= length (hash img))%nat).
    { rewrite Forall_forall in Hall. apply Hall. rewrite Hil.
      apply elem_of_app. right. left. }
    destruct (hash_to_string_from_spec (HL * 2 + 1) (hash img) ltac:(lia)
                32 0 hs 0 Hhs Himg eq_refl ltac:(left; lia) eq_refl)
      as (rc & hs' & Hrun & Hl' & _ & Hres).
    fold (hash_to_string hs (HL * 2 + 1) (hash img)) in Hrun.
    pose proof (hex_string_length_bounds (take 32 (hash img))) as Hb.
    rewrite length_take in Hb.
    destruct Hres as [(-> & _ & Hstr)|(_ & Hbad)]; [|cbn [Nat.add] in Hbad; lia].
    cbn [Nat.add] in Hstr.
    cbn [length print_image_list_from]. unfold abind at 1, in_array at 1.
    rewrite Hil, list_lookup_middle by reflexivity.
    assert (Hil' : image_list il = (pre ++ [img]) ++ rest)
      by (now rewrite <- app_assoc).
    specialize (IH (pre ++ [img]) hs').
    rewrite length_app, Nat.add_1_r in IH.
    unfold abind, in_array, shell_print, to_shell, aret.
    rewrite Hrun. cbn [fst snd]. cbn [Z.eqb].
    destruct (flags_active img) eqn:Ea;
      (rewrite IH by (rewrite <- ?Hil; (assumption || lia));
       unfold with_shell, image_lines; cbn; rewrite Ea, Hstr;
       now rewrite <- !app_assoc).
Qed.

(** X8: for a list of [image_list_length] images whose hashes have their
    32 bytes, and a [hash_string] of [2 * IMG_MGMT_HASH_LEN + 1] bytes with
    [IMG_MGMT_HASH_LEN] at least 32, [print_image_list] prints four lines
    for each image, in the order of the list: the slot line, the version,
    the flags and the hash, which is never left out. *)
Theorem print_image_list_lines (IMG_MGMT_HASH_LEN : Z)
  (il : mcumgr_image_state) (hash_string : buffer) st :
  32 <= IMG_MGMT_HASH_LEN < 2 ^ 30 ->
  IMG_MGMT_HASH_LEN * 2 + 1 <= Z.of_nat (length hash_string) ->
  image_list_length il = Z.of_nat (length (image_list il)) ->
  Forall (fun img => (32 <= length (hash img))%nat) (image_list il) ->
  print_image_list IMG_MGMT_HASH_LEN il hash_string st
  = Some (tt, with_shell st (concat (map image_lines (image_list il)))).
Proof.
  intros HHL Hhs Hlen Hall. unfold print_image_list.
  rewrite Hlen, Nat2Z.id.
  now apply (print_image_list_from_spec IMG_MGMT_HASH_LEN il HHL Hall
               (image_list il) []).
Qed.

End ImageList.

(** ** The C library's searches *)

Lemma byte_eqb_eq (a b : Byte.byte) : Byte.eqb a b = true <-> a = b.
Proof.
  split; [apply Byte.byte_dec_bl | apply Byte.byte_dec_lb].
Qed.

Lemma byte_eqb_neq (a b : Byte.byte) : Byte.eqb a b = false <-> a <> b.
Proof.
  rewrite <- byte_eqb_eq. destruct (Byte.eqb a b); split; congruence.
Qed.

Lemma is_prefix_spec (p s : buffer) :
  is_prefix p s = true <-> exists k, s = p ++ k.
Proof.
  revert s. induction p as [|a p IH]; intros s; cbn [is_prefix].
  - split; [eauto|reflexivity].
  - destruct s as [|b s].
    + split; [discriminate | intros [k Hk]; discriminate Hk].
    + rewrite andb_true_iff, byte_eqb_eq, IH. split.
      * intros [-> [k ->]]. now exists k.
      * intros [k Hk]. injection Hk as -> ->. eauto.
Qed.

(** [strstr] returns the start of an occurrence. *)
Lemma strstr_Some (s needle : buffer) (i : nat) :
  strstr s needle = Some i ->
  (i <= length s)%nat /\ exists k, drop i s = needle ++ k.
Proof.
  revert i. induction s as [|c s IH]; intros i; cbn [strstr].
  - destruct (is_prefix needle []) eqn:Ep; [|discriminate].
    intros [= <-]. split; [cbn; lia|]. now apply is_prefix_spec.
  - destruct (is_prefix needle (c :: s)) eqn:Ep.
    + intros [= <-]. split; [cbn; lia|]. now apply is_prefix_spec.
    + destruct (strstr s needle) as [j|]; [|discriminate].
      intros [= <-]. destruct (IH j eq_refl) as [Hj Hk].
      split; [cbn; lia | exact Hk].
Qed.

(** [strstr] finds an occurrence when there is one, at or before it. *)
Lemma strstr_complete (a needle b : buffer) :
  exists i, strstr (a ++ needle ++ b) needle = Some i /\ (i <= length a)%nat.
Proof.
  induction a as [|c a IH].
  - exists 0%nat. split; [|cbn; lia]. cbn [app].
    assert (Hp : is_prefix needle (needle ++ b) = true)
      by (apply is_prefix_spec; eauto).
    destruct (needle ++ b); cbn [strstr]; now rewrite Hp.
  - destruct IH as (i & Hi & Hle). cbn [app strstr].
    destruct (is_prefix needle (c :: a ++ needle ++ b)).
    + exists 0%nat. split; [reflexivity | lia].
    + rewrite Hi. exists (S i). split; [reflexivity | cbn; lia].
Qed.

(** Before a prefix without colon there is no "://". *)
Lemma strstr_scheme (a rest : buffer) :
  colon ∉ a ->
  strstr (a ++ scheme_mark ++ rest) scheme_mark = Some (length a).
Proof.
  intros Ha. induction a as [|c a IH].
  - reflexivity.
  - apply not_elem_of_cons in Ha as [Hc Ha].
    cbn [app strstr length].
    replace (is_prefix scheme_mark (c :: a ++ scheme_mark ++ rest)) with false.
    + now rewrite IH.
    + symmetry. unfold scheme_mark.
      change (String.list_byte_of_string "://") with [colon; slash; slash].
      cbn [is_prefix]. apply andb_false_iff. left.
      apply byte_eqb_neq. congruence.
Qed.

Lemma strchr_Some (s : buffer) (c : Byte.byte) (i : nat) :
  strchr s c = Some i -> s !! i = Some c /\ c ∉ take i s.
Proof.
  revert i. induction s as [|b s IH]; intros i; cbn [strchr]; [discriminate|].
  destruct (Byte.eqb b c) eqn:Eb.
  - apply byte_eqb_eq in Eb. subst b. intros [= <-].
    split; [reflexivity | apply not_elem_of_nil].
  - apply byte_eqb_neq in Eb.
    destruct (strchr s c) as [j|]; [|discriminate].
    intros [= <-]. destruct (IH j eq_refl) as [Hj Hn].
    split; [exact Hj|]. cbn [take]. apply not_elem_of_cons. split; congruence.
Qed.

Lemma strchr_None (s : buffer) (c : Byte.byte) :
  strchr s c = None <-> c ∉ s.
Proof.
  induction s as [|b s IH]; cbn [strchr].
  - split; [intros _; apply not_elem_of_nil | reflexivity].
  - rewrite not_elem_of_cons. destruct (Byte.eqb b c) eqn:Eb.
    + apply byte_eqb_eq in Eb. split; [discriminate | intros [Hc _]; congruence].
    + apply byte_eqb_neq in Eb. destruct (strchr s c) as [j|].
      * split; [discriminate|]. intros [_ Hs]. now apply IH in Hs.
      * split; [|reflexivity]. intros _. split; [congruence | now apply IH].
Qed.

Lemma strchr_first (b rest : buffer) (c : Byte.byte) :
  c ∉ b -> strchr (b ++ c :: rest) c = Some (length b).
Proof.
  intros Hb. induction b as [|x b IH]; cbn [app strchr length].
  - now rewrite (proj2 (byte_eqb_eq c c) eq_refl).
  - apply not_elem_of_cons in Hb as [Hx Hb].
    rewrite (proj2 (byte_eqb_neq x c)) by congruence. now rewrite IH.
Qed.

Lemma in_drop (x : Byte.byte) (n : nat) (l : list Byte.byte) :
  x ∈ drop n l -> x ∈ l.
Proof.
  intros Hx. rewrite <- (take_drop n l). apply elem_of_app. now right.
Qed.

Lemma in_take (x : Byte.byte) (n : nat) (l : list Byte.byte) :
  x ∈ take n l -> x ∈ l.
Proof.
  intros Hx. rewrite <- (take_drop n l). apply elem_of_app. now left.
Qed.

Lemma cstr_no_NUL (s : buffer) :
  NUL ∉ s -> forallb (fun c => negb (Byte.eqb c NUL)) s = true.
Proof.
  induction s as [|c s IH]; [reflexivity|].
  intros Hs. apply not_elem_of_cons in Hs as [Hc Hs]. cbn [forallb].
  rewrite IH by assumption.
  rewrite (proj2 (byte_eqb_neq c NUL)); [reflexivity | congruence].
Qed.

(** ** cmd_download *)

Section Download.

Context {E : Type} `{SmpLibs E}.

Implicit Types (st : app_state E).

Notation "'do' x <- m ; k" := (abind m (fun x => k))
  (at level 10, x pattern, m at level 100, k at level 200).

Lemma store_inv (a : buffer) (pos : Z) (bs a' : buffer) :
  store a pos bs = Some a' ->
  0 <= pos /\ pos + Z.of_nat (length bs) <= Z.of_nat (length a) /\
  a' = take (Z.to_nat pos) a ++ bs ++ drop (Z.to_nat pos + length bs) a.
Proof.
  unfold store. destruct (0 <=? pos) eqn:E0; [|discriminate].
  cbn [andb].
  destruct (pos + Z.of_nat (length bs) <=? Z.of_nat (length a)) eqn:E1;
    [|discriminate].
  intros [= <-]. apply Z.leb_le in E0, E1. auto.
Qed.

Lemma fota_start_run st :
  fota_start st
  = let (r, e) := lib_fota_download_smp_init (libs st) in
    if r =? 0
    then Some (0, with_libs (lib_k_work_submit e) LibWorkSubmit
                    (with_libs e (LibFotaSmpInit r) st))
    else Some (- EBUSY, with_libs e (LibFotaSmpInit r) st).
Proof.
  unfold fota_start, abind, call_lib, call_lib_void, aret.
  destruct (lib_fota_download_smp_init (libs st)) as [r e].
  now destruct (r =? 0).
Qed.

(** [cmd_download] once the two searches have succeeded. *)
Lemma cmd_download_parsed (argc : Z) (argv : list buffer) st
  (uri : buffer) (s0 e0 : nat) :
  1 <= argc -> argv !! 1%nat = Some uri ->
  strstr uri scheme_mark = Some s0 ->
  strchr (drop (s0 + 3) uri) slash = Some e0 ->
  Z.of_nat (length uri) < 2 ^ 31 ->
  cmd_download argc argv st
  = (do path <- in_array (strcpy (fota_path st) (drop (S (s0 + 3 + e0)) uri));
     do _ <- set_fota_path path;
     if Z.of_nat (s0 + 3 + e0) =? Z.of_nat (length (fota_host st))
     then aret (- ENOMEM)
     else
       do host <- in_array (strncpy (fota_host st) uri (Z.of_nat (s0 + 3 + e0)));
       do host <- in_array (store host (Z.of_nat (s0 + 3 + e0)) [NUL]);
       do _ <- set_fota_host host;
       do ret <- fota_start;
       if ret <? 0 then
         do _ <- shell_error
                   "can't do write operation, request failed (err %d)\n"
                   [ArgInt ret];
         aret (- ENOEXEC)
       else aret 0) st.
Proof.
  intros Hargc Hargv Hs He Hlen.
  destruct (strchr_Some _ _ _ He) as [Hlk _].
  apply lookup_lt_Some in Hlk. rewrite length_drop in Hlk.
  unfold cmd_download. rewrite (proj2 (Z.ltb_ge _ _)) by lia.
  unfold abind at 1, in_array at 1. rewrite Hargv.
  fold scheme_mark. fold slash. rewrite Hs.
  change (length scheme_mark) with 3%nat. rewrite He.
  rewrite to_int_small by lia. rewrite to_size_t_small by lia.
  reflexivity.
Qed.

(** The searches end before the end of the string, on a slash. *)
Lemma parsed_slash (uri : buffer) (s0 e0 : nat) :
  strchr (drop (s0 + 3) uri) slash = Some e0 ->
  (s0 + 3 + e0 < length uri)%nat /\
  uri = take (s0 + 3 + e0) uri ++ slash :: drop (S (s0 + 3 + e0)) uri.
Proof.
  intros He. destruct (strchr_Some _ _ _ He) as [Hlk _].
  unfold buffer in *. rewrite lookup_drop in Hlk.
  split; [now apply lookup_lt_Some in Hlk|].
  symmetry. now apply take_drop_middle.
Qed.

Lemma download_path_overrun (argc : Z) (argv : list buffer) st
  (uri : buffer) (s0 e0 : nat) :
  1 <= argc -> argv !! 1%nat = Some uri ->
  strstr uri scheme_mark = Some s0 ->
  strchr (drop (s0 + 3) uri) slash = Some e0 ->
  Z.of_nat (length uri) < 2 ^ 31 ->
  (length (fota_path st) <= length (drop (S (s0 + 3 + e0)) uri))%nat ->
  cmd_download argc argv st = None.
Proof.
  intros Hargc Hargv Hs He Hlen Hover.
  rewrite (cmd_download_parsed argc argv st uri s0 e0) by assumption.
  unfold abind at 1, in_array at 1, strcpy.
  rewrite store_None; [reflexivity|]. rewrite length_app. cbn [length]. lia.
Qed.

Lemma download_enomem (argc : Z) (argv : list buffer) st
  (uri : buffer) (s0 e0 : nat) :
  1 <= argc -> argv !! 1%nat = Some uri ->
  strstr uri scheme_mark = Some s0 ->
  strchr (drop (s0 + 3) uri) slash = Some e0 ->
  is_c_string uri ->
  (length (drop (S (s0 + 3 + e0)) uri) < length (fota_path st))%nat ->
  (s0 + 3 + e0)%nat = length (fota_host st) ->
  exists st',
    cmd_download argc argv st = Some (- ENOMEM, st') /\
    cstr (fota_path st') = drop (S (s0 + 3 + e0)) uri /\
    fota_host st' = fota_host st /\ libs st' = libs st /\
    lib_calls st' = lib_calls st /\ shell st' = shell st.
Proof.
  intros Hargc Hargv Hs He [Hnul Hlen] Hpath Hhost.
  rewrite (cmd_download_parsed argc argv st uri s0 e0) by assumption.
  set (path := drop (S (s0 + 3 + e0)) uri) in *.
  unfold abind, in_array, strcpy, set_fota_path, aret.
  rewrite store_Some by (rewrite ?length_app; cbn [length]; lia).
  cbn [fota_host]. rewrite Hhost, Z.eqb_refl.
  eexists. split; [reflexivity|]. cbn. repeat split.
  rewrite <- app_assoc. apply cstr_terminated, cstr_no_NUL.
  intros Hin. apply Hnul. unfold path in Hin.
  now apply in_drop in Hin.
Qed.

Lemma download_host_overrun (argc : Z) (argv : list buffer) st
  (uri : buffer) (s0 e0 : nat) :
  1 <= argc -> argv !! 1%nat = Some uri ->
  strstr uri scheme_mark = Some s0 ->
  strchr (drop (s0 + 3) uri) slash = Some e0 ->
  Z.of_nat (length uri) < 2 ^ 31 ->
  (length (drop (S (s0 + 3 + e0)) uri) < length (fota_path st))%nat ->
  (length (fota_host st) < s0 + 3 + e0)%nat ->
  cmd_download argc argv st = None.
Proof.
  intros Hargc Hargv Hs He Hlen Hpath Hhost.
  destruct (parsed_slash uri s0 e0 He) as [Hlt _].
  rewrite (cmd_download_parsed argc argv st uri s0 e0) by assumption.
  unfold abind, in_array, strcpy, set_fota_path, aret.
  rewrite store_Some by (rewrite ?length_app; cbn [length]; lia).
  cbn [fota_host]. rewrite (proj2 (Z.eqb_neq _ _)) by lia.
  unfold strncpy. rewrite store_None; [reflexivity|].
  rewrite length_app, length_take, length_replicate, Nat2Z.id. lia.
Qed.

Lemma download_fits (argc : Z) (argv : list buffer) st
  (uri : buffer) (s0 e0 : nat) :
  1 <= argc -> argv !! 1%nat = Some uri ->
  strstr uri scheme_mark = Some s0 ->
  strchr (drop (s0 + 3) uri) slash = Some e0 ->
  is_c_string uri ->
  (length (drop (S (s0 + 3 + e0)) uri) < length (fota_path st))%nat ->
  (s0 + 3 + e0 < length (fota_host st))%nat ->
  exists rc st',
    cmd_download argc argv st = Some (rc, st') /\
    cstr (fota_host st') = take (s0 + 3 + e0) uri /\
    cstr (fota_path st') = drop (S (s0 + 3 + e0)) uri /\
    length (fota_host st') = length (fota_host st) /\
    length (fota_path st') = length (fota_path st) /\
    ((rc = 0 /\
      lib_calls st' = lib_calls st ++ [LibFotaSmpInit 0; LibWorkSubmit] /\
      shell st' = shell st) \/
     (exists r, r <> 0 /\ rc = - ENOEXEC /\
        lib_calls st' = lib_calls st ++ [LibFotaSmpInit r] /\
        shell st' = shell st
          ++ [ShellError "can't do write operation, request failed (err %d)\n"
                [ArgInt (- EBUSY)]])).
Proof.
  intros Hargc Hargv Hs He [Hnul Hlen] Hpath Hhost.
  destruct (parsed_slash uri s0 e0 He) as [Hlt _].
  rewrite (cmd_download_parsed argc argv st uri s0 e0) by assumption.
  set (e := (s0 + 3 + e0)%nat) in *.
  set (path := drop (S e) uri) in *.
  assert (Hpnul : forallb (fun c => negb (Byte.eqb c NUL)) path = true).
  { apply cstr_no_NUL. intros Hin. apply Hnul. now apply in_drop in Hin. }
  assert (Hhnul : forallb (fun c => negb (Byte.eqb c NUL)) (take e uri) = true).
  { apply cstr_no_NUL. intros Hin. apply Hnul. now apply in_take in Hin. }
  assert (Hte : length (take e uri) = e) by (rewrite length_take; lia).
  unfold abind, in_array, strcpy, set_fota_path, set_fota_host, aret.
  rewrite store_Some by (rewrite ?length_app; cbn [length]; lia).
  cbn [fota_host fota_path]. rewrite (proj2 (Z.eqb_neq _ _)) by lia.
  unfold strncpy. rewrite Nat2Z.id.
  replace (e - length uri)%nat with 0%nat by lia. cbn [replicate].
  rewrite app_nil_r.
  rewrite store_Some by lia.
  change (Z.to_nat 0) with 0%nat. cbn [Nat.add]. rewrite Hte.
  rewrite !take_0. cbn [app].
  set (h1 := take e uri ++ drop e (fota_host st)).
  assert (Hh1 : length h1 = length (fota_host st)).
  { unfold h1. rewrite length_app, length_drop. lia. }
  rewrite store_Some by (cbn [length]; lia).
  rewrite Nat2Z.id. cbn [length].
  assert (Hth1 : take e h1 = take e uri)
    by (unfold h1; now apply take_app_length').
  rewrite Hth1. rewrite fota_start_run. cbn [libs].
  destruct (lib_fota_download_smp_init (libs st)) as [r e'].
  destruct (r =? 0) eqn:Er.
  - apply Z.eqb_eq in Er. subst r. cbn [Z.ltb Z.compare].
    do 2 eexists. split; [reflexivity|]. cbn.
    split; [now apply cstr_terminated|].
    split; [rewrite <- app_assoc; now apply cstr_terminated|].
    split; [rewrite length_app, Hte; cbn [length]; rewrite length_drop; lia|].
    split; [rewrite length_app; cbn [length]; rewrite length_app, length_drop;
            cbn [length]; lia|].
    left. rewrite <- app_assoc. repeat split.
  - apply Z.eqb_neq in Er. change (- EBUSY <? 0) with true. cbv iota.
    unfold shell_error, to_shell.
    do 2 eexists. split; [reflexivity|]. cbn.
    split; [now apply cstr_terminated|].
    split; [rewrite <- app_assoc; now apply cstr_terminated|].
    split; [rewrite length_app, Hte; cbn [length]; rewrite length_drop; lia|].
    split; [rewrite length_app; cbn [length]; rewrite length_app, length_drop;
            cbn [length]; lia|].
    right. exists r. repeat split. exact Er.
Qed.

Lemma cmd_download_no_args (argc : Z) (argv : list buffer) st :
  argc < 1 ->
  cmd_download argc argv st
  = Some (- EINVAL,
          with_shell st [ShellError "no arguments or path(s)\n" []; ShellHelp]).
Proof.
  intros Hargc. unfold cmd_download. rewrite (proj2 (Z.ltb_lt _ _)) by lia.
  unfold abind, shell_error, shell_help, to_shell, aret, with_shell. cbn.
  now rewrite <- app_assoc.
Qed.

Lemma cmd_download_no_uri (argc : Z) (argv : list buffer) st :
  1 <= argc -> argv !! 1%nat = None -> cmd_download argc argv st = None.
Proof.
  intros Hargc Hargv. unfold cmd_download.
  rewrite (proj2 (Z.ltb_ge _ _)) by lia.
  unfold abind at 1, in_array at 1. now rewrite Hargv.
Qed.

Lemma cmd_download_no_scheme (argc : Z) (argv : list buffer) st (uri : buffer) :
  1 <= argc -> argv !! 1%nat = Some uri ->
  strstr uri scheme_mark = None ->
  cmd_download argc argv st = Some (- EINVAL, st).
Proof.
  intros Hargc Hargv Hs. unfold cmd_download.
  rewrite (proj2 (Z.ltb_ge _ _)) by lia.
  unfold abind at 1, in_array at 1. rewrite Hargv.
  fold scheme_mark. now rewrite Hs.
Qed.

Lemma cmd_download_no_slash (argc : Z) (argv : list buffer) st (uri : buffer)
  (s0 : nat) :
  1 <= argc -> argv !! 1%nat = Some uri ->
  strstr uri scheme_mark = Some s0 ->
  strchr (drop (s0 + 3) uri) slash = None ->
  cmd_download argc argv st = Some (- EINVAL, st).
Proof.
  intros Hargc Hargv Hs He. unfold cmd_download.
  rewrite (proj2 (Z.ltb_ge _ _)) by lia.
  unfold abind at 1, in_array at 1. rewrite Hargv.
  fold scheme_mark. fold slash. rewrite Hs.
  change (length scheme_mark) with 3%nat. now rewrite He.
Qed.

(** Once the searches have succeeded, [-EINVAL] is no longer returned. *)
Lemma cmd_download_parsed_rc (argc : Z) (argv : list buffer) st
  (uri : buffer) (s0 e0 : nat) (rc : Z) st' :
  1 <= argc -> argv !! 1%nat = Some uri ->
  strstr uri scheme_mark = Some s0 ->
  strchr (drop (s0 + 3) uri) slash = Some e0 ->
  cmd_download argc argv st = Some (rc, st') ->
  rc = - ENOMEM \/ rc = 0 \/ rc = - ENOEXEC.
Proof.
  intros Hargc Hargv Hs He.
  unfold cmd_download. rewrite (proj2 (Z.ltb_ge _ _)) by lia.
  unfold abind at 1, in_array at 1. rewrite Hargv.
  fold scheme_mark. fold slash. rewrite Hs.
  change (length scheme_mark) with 3%nat. rewrite He.
  unfold abind, in_array, set_fota_path, set_fota_host, aret.
  destruct (strcpy _ _) as [path|]; [|discriminate].
  cbn [fota_host].
  destruct (_ =? _); [intros [= <- _]; auto|].
  destruct (strncpy _ _ _) as [h1|]; [|discriminate].
  destruct (store h1 _ _) as [h2|]; [|discriminate].
  rewrite fota_start_run. cbn [libs].
  destruct (lib_fota_download_smp_init (libs st)) as [r e'].
  destruct (r =? 0).
  - cbn. intros [= <- _]. auto.
  - change (- EBUSY <? 0) with true. cbv iota. unfold shell_error, to_shell.
    intros [= <- _]. auto.
Qed.

(** X9: when [cmd_download] returns 0, [fota_host] and [fota_path] hold the
    two halves of the URI around the first slash after "://": joined by a
    slash they give the URI back.  The download is queued, and the queued
    [start_fota_download] passes exactly these two strings to
    [fota_download_start_with_image_type], with security tag -1. *)
Theorem cmd_download_round_trip (argc : Z) (argv : list buffer) st st' :
  (forall a, a ∈ argv -> is_c_string a) ->
  cmd_download argc argv st = Some (0, st') ->
  exists uri pre post,
    argv !! 1%nat = Some uri /\
    cstr (fota_host st') ++ slash :: cstr (fota_path st') = uri /\
    cstr (fota_host st') = pre ++ scheme_mark ++ post /\ (slash ∉ post) /\
    lib_calls st' = lib_calls st ++ [LibFotaSmpInit 0; LibWorkSubmit] /\
    exists ret st'',
      start_fota_download st' = Some (tt, st'') /\
      lib_calls st''
        = lib_calls st'
            ++ [LibFotaStart (cstr (fota_host st')) (cstr (fota_path st'))
                  (-1) 0 0 ret].
Proof.
  intros Hcs Hrun.
  destruct (Z.lt_ge_cases argc 1) as [Hargc|Hargc].
  { rewrite cmd_download_no_args in Hrun by assumption. discriminate Hrun. }
  destruct (argv !! 1%nat) as [uri|] eqn:Hargv.
  2:{ rewrite cmd_download_no_uri in Hrun by assumption. discriminate Hrun. }
  assert (Hc : is_c_string uri)
    by (apply Hcs; apply list_elem_of_lookup; eauto).
  destruct (strstr uri scheme_mark) as [s0|] eqn:Hs.
  2:{ rewrite (cmd_download_no_scheme argc argv st uri) in Hrun by assumption.
      discriminate Hrun. }
  destruct (strchr (drop (s0 + 3) uri) slash) as [e0|] eqn:He.
  2:{ rewrite (cmd_download_no_slash argc argv st uri s0) in Hrun
        by assumption.
      discriminate Hrun. }
  destruct (parsed_slash uri s0 e0 He) as [Hlt Huri].
  destruct (strstr_Some _ _ _ Hs) as [Hs0 [k Hk]].
  destruct (strchr_Some _ _ _ He) as [_ Hnoslash].
  destruct (le_lt_dec (length (fota_path st))
              (length (drop (S (s0 + 3 + e0)) uri))) as [Hp|Hp].
  { rewrite (download_path_overrun argc argv st uri s0 e0) in Hrun;
      try assumption; [discriminate Hrun | apply Hc]. }
  destruct (lt_eq_lt_dec (s0 + 3 + e0) (length (fota_host st)))
    as [[Hh|Hh]|Hh].
  - destruct (download_fits argc argv st uri s0 e0)
      as (rc & st1 & Hrun1 & Hhost & Hpath & _ & _ & Hres); try assumption.
    rewrite Hrun1 in Hrun. injection Hrun as -> ->.
    destruct Hres as [(_ & Hcalls & _)|(r & _ & Hbad & _)];
      [|discriminate Hbad].
    exists uri, (take s0 uri), (take e0 (drop (s0 + 3) uri)).
    split; [reflexivity|]. rewrite Hhost, Hpath.
    split; [now symmetry|]. split.
    { rewrite <- Nat.add_assoc, <- take_take_drop. f_equal.
      rewrite Hk. change (3 + e0)%nat with (length scheme_mark + e0)%nat.
      rewrite take_app_add. f_equal. f_equal.
      rewrite <- drop_drop, Hk. symmetry.
      exact (drop_app_length scheme_mark k). }
    split; [exact Hnoslash|]. split; [exact Hcalls|].
    unfold start_fota_download, abind, call_lib, aret.
    destruct (lib_fota_download_start_with_image_type _ _ _ _ _ _)
      as [ret e1].
    exists ret. eexists. split; [reflexivity|]. cbn. now rewrite Hhost, Hpath.
  - destruct (download_enomem argc argv st uri s0 e0)
      as (st1 & Hrun1 & _); try assumption.
    rewrite Hrun1 in Hrun. discriminate Hrun.
  - rewrite (download_host_overrun argc argv st uri s0 e0) in Hrun;
      try assumption; [discriminate Hrun | apply Hc].
Qed.

(** X10: for a URI [a://b/c] (no colon in [a], no slash in [b]) and the
    two arrays of 128 bytes, the only length check of [cmd_download] is
    "host length = 128": a path of 128 characters or more overruns
    [fota_path], a host [a://b] of more than 128 overruns [fota_host], a
    host of exactly 128 gives [-ENOMEM] after [fota_path] has been
    overwritten, and a shorter one is stored with the path. *)
Theorem cmd_download_bounds (argc : Z) (argv : list buffer) st (a b c : buffer) :
  1 <= argc ->
  argv !! 1%nat = Some ((a ++ scheme_mark ++ b) ++ slash :: c) ->
  is_c_string ((a ++ scheme_mark ++ b) ++ slash :: c) ->
  (colon ∉ a) -> (slash ∉ b) ->
  length (fota_path st) = 128%nat -> length (fota_host st) = 128%nat ->
  ((128 <= length c)%nat -> cmd_download argc argv st = None) /\
  ((length c < 128)%nat -> (128 < length (a ++ scheme_mark ++ b))%nat ->
     cmd_download argc argv st = None) /\
  ((length c < 128)%nat -> length (a ++ scheme_mark ++ b) = 128%nat ->
     exists st',
       cmd_download argc argv st = Some (- ENOMEM, st') /\
       cstr (fota_path st') = c /\ fota_host st' = fota_host st /\
       lib_calls st' = lib_calls st /\ shell st' = shell st) /\
  ((length c < 128)%nat -> (length (a ++ scheme_mark ++ b) < 128)%nat ->
     exists rc st',
       cmd_download argc argv st = Some (rc, st') /\
       cstr (fota_host st') = a ++ scheme_mark ++ b /\
       cstr (fota_path st') = c /\ (rc = 0 \/ rc = - ENOEXEC)).
Proof.
  intros Hargc Hargv Hc Ha Hb Hnp Hnh.
  set (host := a ++ scheme_mark ++ b) in *.
  set (uri := host ++ slash :: c) in *.
  assert (Hs : strstr uri scheme_mark = Some (length a)).
  { unfold uri, host. rewrite <- !app_assoc. now apply strstr_scheme. }
  assert (Hhl : (length a + 3 + length b)%nat = length host).
  { unfold host. rewrite !length_app. change (length scheme_mark) with 3%nat.
    lia. }
  assert (Hd : drop (length a + 3) uri = b ++ slash :: c).
  { unfold uri, host. rewrite (app_assoc a), <- (app_assoc _ b).
    apply drop_app_length'. rewrite length_app. reflexivity. }
  assert (He : strchr (drop (length a + 3) uri) slash = Some (length b))
    by (rewrite Hd; now apply strchr_first).
  assert (Hpath : drop (S (length a + 3 + length b)) uri = c).
  { rewrite Hhl. unfold uri.
    change (host ++ slash :: c) with (host ++ [slash] ++ c).
    rewrite app_assoc. apply drop_app_length'.
    rewrite length_app. cbn [length]. lia. }
  assert (Hhost : take (length a + 3 + length b) uri = host)
    by (rewrite Hhl; apply take_app_length).
  split; [|split; [|split]].
  - intros Hlc. apply (download_path_overrun argc argv st uri (length a)
                         (length b)); try assumption; [apply Hc|].
    rewrite Hpath. lia.
  - intros Hlc Hlh. apply (download_host_overrun argc argv st uri (length a)
                             (length b)); try assumption; [apply Hc| |].
    + rewrite Hpath. lia.
    + lia.
  - intros Hlc Hlh.
    destruct (download_enomem argc argv st uri (length a) (length b))
      as (st' & Hrun & Hp & Hh & _ & Hcalls & Hsh); try assumption.
    + rewrite Hpath. lia.
    + lia.
    + exists st'. rewrite Hpath in Hp. auto.
  - intros Hlc Hlh.
    destruct (download_fits argc argv st uri (length a) (length b))
      as (rc & st' & Hrun & Hh & Hp & _ & _ & Hres); try assumption.
    + rewrite Hpath. lia.
    + lia.
    + exists rc, st'. rewrite Hhost in Hh. rewrite Hpath in Hp.
      split; [exact Hrun|]. split; [exact Hh|]. split; [exact Hp|].
      destruct Hres as [(-> & _)|(r & _ & -> & _)]; auto.
Qed.

(** X11: with an argument present, [cmd_download] returns [-EINVAL] and
    leaves the state as it was exactly when the URI is not of the form
    [a://b/c]. *)
Theorem cmd_download_einval (argc : Z) (argv : list buffer) st (uri : buffer) :
  1 <= argc -> argv !! 1%nat = Some uri ->
  (cmd_download argc argv st = Some (- EINVAL, st) <->
   ~ exists a b c, uri = a ++ scheme_mark ++ b ++ slash :: c).
Proof.
  intros Hargc Hargv. unfold buffer in *. split.
  - intros Hrun (a & b & c & Huri).
    destruct (strstr_complete a scheme_mark (b ++ slash :: c))
      as (i & Hi & Hle).
    rewrite <- Huri in Hi.
    destruct (strchr (drop (i + 3) uri) slash) as [e0|] eqn:He.
    + destruct (cmd_download_parsed_rc argc argv st uri i e0 _ _
                  Hargc Hargv Hi He Hrun) as [Hr|[Hr|Hr]]; discriminate Hr.
    + apply strchr_None in He. apply He.
      rewrite Huri, (app_assoc a), drop_app_le
        by (rewrite length_app; change (length scheme_mark) with 3%nat; lia).
      apply elem_of_app. right. apply elem_of_app. right. left.
  - intros Hshape.
    destruct (strstr uri scheme_mark) as [s0|] eqn:Hs;
      [|now apply (cmd_download_no_scheme argc argv st uri)].
    destruct (strchr (drop (s0 + 3) uri) slash) as [e0|] eqn:He;
      [|now apply (cmd_download_no_slash argc argv st uri s0)].
    exfalso. apply Hshape.
    destruct (strstr_Some _ _ _ Hs) as [_ [k Hk]].
    destruct (strchr_Some _ _ _ He) as [Hlk _].
    assert (Hk' : drop (s0 + 3) uri = k).
    { rewrite <- drop_drop, Hk. exact (drop_app_length scheme_mark k). }
    rewrite Hk' in Hlk.
    exists (take s0 uri), (take e0 k), (drop (S e0) k).
    rewrite (take_drop_middle k e0 slash Hlk), <- Hk.
    now rewrite take_drop.
Qed.

End Download.

(** ** The commands that list the images *)

Section ImageCommands.

Context {E : Type} `{SmpLibs E}.

Implicit Types (st : app_state E).

(** X12: [cmd_read_image_list] returns [-ENOEXEC] with one error message
    (which names the RESET operation) when the library returns a negative
    code; for any other code, zero or positive, it prints the list the
    library left and returns 0. *)
Theorem cmd_read_image_list_outcomes (IMG_MGMT_HASH_LEN : Z)
  (image_list0 : mcumgr_image_state) (hash_string : buffer) st
  (ret : Z) (il : mcumgr_image_state) (e : E) :
  32 <= IMG_MGMT_HASH_LEN < 2 ^ 30 ->
  IMG_MGMT_HASH_LEN * 2 + 1 <= Z.of_nat (length hash_string) ->
  lib_dfu_target_smp_image_list_get image_list0 (libs st) = (ret, il, e) ->
  (0 <= ret -> image_list_length il = Z.of_nat (length (image_list il))) ->
  (0 <= ret ->
   Forall (fun img => (32 <= length (hash img))%nat) (image_list il)) ->
  cmd_read_image_list IMG_MGMT_HASH_LEN image_list0 hash_string st
  = Some (if ret <? 0 then - ENOEXEC else 0,
          with_shell (with_libs e (LibImageListGet ret) st)
            (if ret <? 0
             then [ShellError
                     "can't do RESET operation, request failed (err %d)\n"
                     [ArgInt ret]]
             else concat (map image_lines (image_list il)))).
Proof.
  intros HHL Hhs Hget Hlen Hall. unfold cmd_read_image_list. rewrite Hget.
  destruct (ret <? 0) eqn:Er.
  - reflexivity.
  - apply Z.ltb_ge in Er. unfold abind, print_image_list.
    rewrite (Hlen Er), Nat2Z.id.
    rewrite (print_image_list_from_spec IMG_MGMT_HASH_LEN il HHL (Hall Er)
               (image_list il) [] hash_string _ eq_refl Hhs).
    reflexivity.
Qed.

(** X13: [cmd_update] schedules the update only after [dfu_target_init]
    returned 0 and asks for the image list only after the scheduling
    returned 0.  A failure of either gives [-ENOEXEC] with a message that
    shows [-EBUSY]; a negative code from the list request gives [-ENOEXEC]
    with that code, the update being scheduled already; a positive code is
    taken as success without a list; with 0 the list is printed before
    "Update OK". *)
Theorem cmd_update_outcomes (IMG_MGMT_HASH_LEN : Z)
  (image_list0 : mcumgr_image_state) (hash_string : buffer) st
  (r1 r2 r3 : Z) (e1 e2 e3 : E) (il : mcumgr_image_state) :
  32 <= IMG_MGMT_HASH_LEN < 2 ^ 30 ->
  IMG_MGMT_HASH_LEN * 2 + 1 <= Z.of_nat (length hash_string) ->
  lib_dfu_target_init 0 2048 (libs st) = (r1, e1) ->
  lib_dfu_target_schedule_update 1 e1 = (r2, e2) ->
  lib_dfu_target_smp_image_list_get image_list0 e2 = (r3, il, e3) ->
  (r3 = 0 -> image_list_length il = Z.of_nat (length (image_list il))) ->
  (r3 = 0 ->
   Forall (fun img => (32 <= length (hash img))%nat) (image_list il)) ->
  let failed (code : Z) :=
    [ShellError "can't do Update operation, request failed (err %d)\n"
       [ArgInt code]] in
  let st1 := with_libs e1 (LibDfuInit 0 2048 r1) st in
  let st2 := with_libs e2 (LibScheduleUpdate 1 r2) st1 in
  let st3 := with_libs e3 (LibImageListGet r3) st2 in
  cmd_update IMG_MGMT_HASH_LEN image_list0 hash_string st
  = Some (if negb (r1 =? 0) then (- ENOEXEC, with_shell st1 (failed (- EBUSY)))
          else if negb (r2 =? 0)
               then (- ENOEXEC, with_shell st2 (failed (- EBUSY)))
          else if r3 <? 0 then (- ENOEXEC, with_shell st3 (failed r3))
          else if r3 =? 0
               then (0, with_shell st3
                          (concat (map image_lines (image_list il))
                             ++ [ShellPrint "Update OK" []]))
          else (0, with_shell st3 [ShellPrint "Update OK" []])).
Proof.
  intros HHL Hhs H1 H2 H3 Hlen Hall failed st1 st2 st3.
  unfold cmd_update, fota_update, abind at 1 2, call_lib at 1. rewrite H1.
  fold st1. destruct (r1 =? 0) eqn:E1; cbn [negb]; [|reflexivity].
  unfold abind at 1, call_lib. change (libs st1) with e1. rewrite H2.
  fold st2. destruct (r2 =? 0) eqn:E2; cbn [negb]; [|reflexivity].
  change (libs st2) with e2. rewrite H3. fold st3.
  destruct (r3 =? 0) eqn:E3; cbn [negb].
  - apply Z.eqb_eq in E3. subst r3. unfold abind, print_image_list.
    rewrite (Hlen eq_refl), Nat2Z.id.
    rewrite (print_image_list_from_spec IMG_MGMT_HASH_LEN il HHL
               (Hall eq_refl) (image_list il) [] hash_string _ eq_refl Hhs).
    unfold aret, shell_print, to_shell. cbn.
    unfold with_shell. cbn. now rewrite <- (app_assoc (shell st)).
  - unfold aret. destruct (r3 <? 0); reflexivity.
Qed.

End ImageCommands.

(** ** The sample on the scripted libraries *)

Ltac byte_not_in :=
  let Hin := fresh "Hin" in
  intros Hin; cbv in Hin;
  repeat (apply elem_of_cons in Hin as [Hin|Hin]; [discriminate Hin|]);
  inversion Hin.

Lemma download_argv_c_strings : forall a, a ∈ download_argv -> is_c_string a.
Proof.
  intros a Ha. unfold download_argv in Ha.
  repeat (apply elem_of_cons in Ha as [->|Ha]); [| |inversion Ha].
  - split.
    + byte_not_in.
    + cbn. lia.
  - split.
    + byte_not_in.
    + cbn. lia.
Qed.

Lemma print_image_list_lines_witness :
  print_image_list 32 (mock_images (mock_ok 0)) (replicate 65 NUL)
    (mock_state (mock_ok 0))
  = Some (tt, with_shell (mock_state (mock_ok 0)) (image_lines mock_image)).
Proof.
  rewrite (print_image_list_lines 32 (mock_images (mock_ok 0))
             (replicate 65 NUL) (mock_state (mock_ok 0))).
  - reflexivity.
  - lia.
  - cbn. lia.
  - reflexivity.
  - constructor; [cbn; lia | constructor].
Defined.

Lemma cmd_download_round_trip_witness :
  exists st',
    cmd_download 2 download_argv (mock_state (mock_ok 0)) = Some (0, st') /\
    cstr (fota_host st') ++ slash :: cstr (fota_path st')
      = String.list_byte_of_string "https://h.io/a/b".
Proof.
  eexists. split; [vm_compute; reflexivity|].
  edestruct (cmd_download_round_trip 2 download_argv (mock_state (mock_ok 0)))
    as (uri & pre & post & Hargv & Hjoin & _).
  - exact download_argv_c_strings.
  - vm_compute. reflexivity.
  - injection Hargv as <-. exact Hjoin.
Defined.

Lemma cmd_download_bounds_witness :
  exists rc st',
    cmd_download 2 download_argv (mock_state (mock_ok 0)) = Some (rc, st') /\
    cstr (fota_host st') = String.list_byte_of_string "https://h.io" /\
    cstr (fota_path st') = String.list_byte_of_string "a/b" /\
    (rc = 0 \/ rc = - ENOEXEC).
Proof.
  apply (cmd_download_bounds 2 download_argv (mock_state (mock_ok 0))
           (String.list_byte_of_string "https")
           (String.list_byte_of_string "h.io")
           (String.list_byte_of_string "a/b")).
  - lia.
  - reflexivity.
  - apply download_argv_c_strings. right. left.
  - byte_not_in.
  - byte_not_in.
  - reflexivity.
  - reflexivity.
  - cbn. lia.
  - cbn. lia.
Defined.

Lemma cmd_download_einval_witness :
  ~ exists a b c,
      String.list_byte_of_string "h.io/a/b" = a ++ scheme_mark ++ b ++ slash :: c.
Proof.
  apply (cmd_download_einval 2
           [String.list_byte_of_string "download";
            String.list_byte_of_string "h.io/a/b"]
           (mock_state (mock_ok 0)) (String.list_byte_of_string "h.io/a/b")).
  - lia.
  - reflexivity.
  - vm_compute. reflexivity.
Defined.

Lemma cmd_read_image_list_outcomes_witness :
  cmd_read_image_list 32 {| image_list := []; image_list_length := 0 |}
    (replicate 65 NUL) (mock_state (mock_ok 0))
  = Some (0, with_shell
               (with_libs (mock_ok 0) (LibImageListGet 0) (mock_state (mock_ok 0)))
               (image_lines mock_image)).
Proof.
  rewrite (cmd_read_image_list_outcomes 32
             {| image_list := []; image_list_length := 0 |} (replicate 65 NUL)
             (mock_state (mock_ok 0)) 0 (mock_images (mock_ok 0)) (mock_ok 0)).
  - reflexivity.
  - lia.
  - cbn. lia.
  - reflexivity.
  - reflexivity.
  - intros _. constructor; [cbn; lia | constructor].
Defined.

Lemma cmd_update_outcomes_witness :
  fst <$> cmd_update 32 {| image_list := []; image_list_length := 0 |}
            (replicate 65 NUL) (mock_state (mock_ok 0)) = Some 0.
Proof.
  rewrite (cmd_update_outcomes 32
             {| image_list := []; image_list_length := 0 |} (replicate 65 NUL)
             (mock_state (mock_ok 0)) 0 0 0 (mock_ok 0) (mock_ok 0) (mock_ok 0)
             (mock_images (mock_ok 0))).
  - reflexivity.
  - lia.
  - cbn. lia.
  - reflexivity.
  - reflexivity.
  - reflexivity.
  - reflexivity.
  - intros _. constructor; [cbn; lia | constructor].
Defined.

(** A host of 130 characters is copied past the end of [fota_host]; one of
    exactly 128 is refused. *)
Example download_long_host_overruns :
  cmd_download 2
    [String.list_byte_of_string "download";
     String.list_byte_of_string "a://" ++ replicate 126 Byte.x78
       ++ String.list_byte_of_string "/p"]
    (mock_state (mock_ok 0)) = None.
Proof. vm_compute. reflexivity. Qed.

Example download_host_of_128_refused :
  fst <$> cmd_download 2
            [String.list_byte_of_string "download";
             String.list_byte_of_string "a://" ++ replicate 124 Byte.x78
               ++ String.list_byte_of_string "/p"]
            (mock_state (mock_ok 0)) = Some (- ENOMEM).
Proof. vm_compute. reflexivity. Qed.

(** A failing reset still reports success. *)
Example reset_failure_reported_ok :
  (fun r => (fst r, shell (snd r), lib_calls (snd r)))
    <$> cmd_reset (mock_state (mock_ok (-5)))
  = Some (0, [ShellPrint "Reset OK" []], [LibDfuReset (-5)]).
Proof. reflexivity. Qed.
